(** * minimal_goban: the rules engine of a 19x19 Go board

    A shallow embedding of [minimal_goban.js] (and of the functions of its
    sibling script that differ from it) together with proofs about
    legality, capture, ko and the two flood fills.

    Conventions of the embedding.
    - A JavaScript string is the list of its UTF-16 code units ([jstring]);
      [js "dd"] writes one from a literal.
    - The three globals [board], [player], [ko] form the record [GameState];
      every function that reads or writes a global runs in the state monad
      [M], whose only failure is running out of recursion fuel.
    - The [touched] objects (created with [Object.create(null)]) are lists of
      keys in insertion order, which is the order [Object.keys] reports for
      keys that are not array indices. *)

From Stdlib Require Import String Ascii List ZArith NArith Bool Lia Permutation.
Import ListNotations.

Set Implicit Arguments.

(** ** Values *)

(** A string, as its UTF-16 code units. *)
Definition jstring := list N.

Definition js (s : string) : jstring :=
  map N_of_ascii (list_ascii_of_string s).

(** The values a caller can hand to the public functions; [JNum] holds the
    integral numbers. Whatever is not a string fails the [typeof] test of
    [in_bounds] in the same way. *)
Inductive jsval : Type :=
| JUndefined
| JNull
| JBool (b : bool)
| JNum (n : Z)
| JStr (s : jstring).

Coercion JStr : jstring >-> jsval.

Definition jstring_eqb (a b : jstring) : bool :=
  if list_eq_dec N.eq_dec a b then true else false.

(** [a === b] *)
Definition strict_eq (a b : jsval) : bool :=
  match a, b with
  | JUndefined, JUndefined => true
  | JNull, JNull => true
  | JBool a, JBool b => Bool.eqb a b
  | JNum m, JNum n => Z.eqb m n
  | JStr s, JStr t => jstring_eqb s t
  | _, _ => false
  end.

(** [EMPTY = 0], [BLACK = 1], [WHITE = 2] *)
Inductive stone : Type := EMPTY | BLACK | WHITE.

Definition stone_eqb (a b : stone) : bool :=
  match a, b with
  | EMPTY, EMPTY | BLACK, BLACK | WHITE, WHITE => true
  | _, _ => false
  end.

(** ** Coordinates *)

Local Open Scope Z_scope.

(** [s.charCodeAt(i)]; every caller has checked the length first. *)
Definition charCodeAt (s : jstring) (i : nat) : Z := Z.of_N (nth i s 0%N).

(** [String.fromCharCode(n)] keeps the low 16 bits. *)
Definition fromCharCode (n : Z) : N := Z.to_N (n mod 65536).

Definition xy_to_s (x y : Z) : jstring :=
  [fromCharCode (x + 97); fromCharCode (y + 97)].

Definition s_to_xy (s : jstring) : Z * Z :=
  (charCodeAt s 0 - 97, charCodeAt s 1 - 97).

Definition in_bounds (v : jsval) : bool :=
  match v with
  | JStr s =>
      if negb (Nat.eqb (length s) 2) then false
      else
        let '(x, y) := s_to_xy s in
        (0 <=? x) && (x <? 19) && (0 <=? y) && (y <? 19)
  | _ => false
  end.

Definition neighbours (s : jstring) : list jstring :=
  if negb (in_bounds s) then []
  else
    let '(x, y) := s_to_xy s in
    (if x <? 19 - 1 then [xy_to_s (x + 1) y] else []) ++
    (if x >? 0 then [xy_to_s (x - 1) y] else []) ++
    (if y <? 19 - 1 then [xy_to_s x (y + 1)] else []) ++
    (if y >? 0 then [xy_to_s x (y - 1)] else []).

(** ** The globals *)

Definition Board := list (list stone).

Fixpoint list_upd {A : Type} (n : nat) (f : A -> A) (l : list A) : list A :=
  match l, n with
  | [], _ => []
  | a :: l', O => f a :: l'
  | a :: l', S n' => a :: list_upd n' f l'
  end.

(** [board[x][y]] *)
Definition board_get (b : Board) (x y : Z) : stone :=
  nth (Z.to_nat y) (nth (Z.to_nat x) b []) EMPTY.

(** [board[x][y] = c]; the program only writes cells of the 19x19 array. *)
Definition board_set (b : Board) (x y : Z) (c : stone) : Board :=
  list_upd (Z.to_nat x) (list_upd (Z.to_nat y) (fun _ => c)) b.

Record GameState : Type := mkState {
  board : Board;
  player : stone;
  ko : jsval
}.

(** The array built by the two start-up loops, Black to move, no ko. *)
Definition initial_board : Board := repeat (repeat EMPTY 19) 19.

Definition initial_state : GameState :=
  {| board := initial_board; player := BLACK; ko := JNull |}.

Definition wf_board (b : Board) : Prop :=
  length b = 19%nat /\ Forall (fun col => length col = 19%nat) b.

Record wf_state (st : GameState) : Prop := {
  wf_st_board : wf_board (board st);
  wf_st_player : player st <> EMPTY
}.

(** ** State monad *)

Definition M (A : Type) : Type := GameState -> option (A * GameState).

Definition ret {A} (a : A) : M A := fun st => Some (a, st).

Definition bind {A B} (m : M A) (k : A -> M B) : M B :=
  fun st => match m st with
            | Some (a, st') => k a st'
            | None => None
            end.

Definition out_of_fuel {A} : M A := fun _ => None.

Notation "x <- m ;; k" := (bind m (fun x => k))
  (at level 61, m at next level, right associativity).
Notation "m ;;; k" := (bind m (fun _ => k))
  (at level 61, right associativity).

Definition get_board : M Board := fun st => Some (board st, st).
Definition get_player : M stone := fun st => Some (player st, st).
Definition get_ko : M jsval := fun st => Some (ko st, st).

Definition set_player (c : stone) : M unit :=
  fun st => Some (tt, {| board := board st; player := c; ko := ko st |}).
Definition set_ko (k : jsval) : M unit :=
  fun st => Some (tt, {| board := board st; player := player st; ko := k |}).
Definition set_cell (x y : Z) (c : stone) : M unit :=
  fun st => Some (tt, {| board := board_set (board st) x y c;
                         player := player st; ko := ko st |}).

(** ** Queries *)

(** The cell a point names on a given board. *)
Definition cell (b : Board) (v : jsval) : stone :=
  if negb (in_bounds v) then EMPTY
  else match v with
       | JStr s => let '(x, y) := s_to_xy s in board_get b x y
       | _ => EMPTY
       end.

Definition state_at (v : jsval) : M stone :=
  b <- get_board ;; ret (cell b v).

(** [touched]: keys in insertion order. *)
Definition tset := list jstring.

Definition touched_has (t : tset) (s : jstring) : bool :=
  existsb (jstring_eqb s) t.

(** [touched[s] = true] *)
Definition touch (s : jstring) (t : tset) : tset :=
  if touched_has t s then t else t ++ [s].

Section Loops.
(** The recursive call made from inside the loop bodies. *)
Variable rec_liberties : jstring -> tset -> M (bool * tset).

(** The [for] loop of [has_liberties]. *)
Fixpoint has_liberties_loop (colour : stone) (ns : list jstring)
         (touched : tset) : M (bool * tset) :=
  match ns with
  | [] => ret (false, touched)
  | neighbour :: rest =>
      if touched_has touched neighbour
      then has_liberties_loop colour rest touched
      else
        neighbour_colour <- state_at neighbour ;;
        if stone_eqb neighbour_colour EMPTY then ret (true, touched)
        else if stone_eqb neighbour_colour colour then
          r <- rec_liberties neighbour touched ;;
          if fst r then ret (true, snd r)
          else has_liberties_loop colour rest (snd r)
        else has_liberties_loop colour rest touched
  end.

Variable rec_group : jstring -> tset -> M tset.

(** The [for] loop of [group_at_recurse]. *)
Fixpoint group_at_loop (colour : stone) (ns : list jstring)
         (touched : tset) : M tset :=
  match ns with
  | [] => ret touched
  | neighbour :: rest =>
      if touched_has touched neighbour
      then group_at_loop colour rest touched
      else
        c <- state_at neighbour ;;
        if stone_eqb c colour then
          touched' <- rec_group neighbour touched ;;
          group_at_loop colour rest touched'
        else group_at_loop colour rest touched
  end.
End Loops.

(** The body of [has_liberties] once [touched] is an object: the recursion
    passes it on, so the callee marks the same object. *)
Fixpoint has_liberties_fuel (fuel : nat) (s : jstring) (touched : tset)
  : M (bool * tset) :=
  match fuel with
  | O => out_of_fuel
  | S fuel' =>
      let touched := touch s touched in
      colour <- state_at s ;;
      has_liberties_loop (has_liberties_fuel fuel') colour
                         (neighbours s) touched
  end.

(** Each nested call marks a point of the board that was not marked, so the
    depth never exceeds the 361 points; one more level for the outer call. *)
Definition FUEL : nat := 362.

(** [has_liberties(s, touched)]; [None] is the omitted argument. *)
Definition has_liberties (s : jstring) (touched : option tset) : M bool :=
  let touched := match touched with
                 | None => []
                 | Some t => t
                 end in
  r <- has_liberties_fuel FUEL s touched ;;
  ret (fst r).

Fixpoint group_at_recurse_fuel (fuel : nat) (s : jstring) (touched : tset)
  : M tset :=
  match fuel with
  | O => out_of_fuel
  | S fuel' =>
      let touched := touch s touched in
      colour <- state_at s ;;
      group_at_loop (group_at_recurse_fuel fuel') colour
                    (neighbours s) touched
  end.

Definition group_at_recurse (s : jstring) (touched : tset) : M tset :=
  group_at_recurse_fuel FUEL s touched.

Definition group_at (s : jstring) : M (list jstring) :=
  c <- state_at s ;;
  if stone_eqb c EMPTY then ret []
  else
    touched <- group_at_recurse s [] ;;
    ret touched.

Fixpoint destroy_cells (group : list jstring) : M unit :=
  match group with
  | [] => ret tt
  | s :: rest =>
      let '(x, y) := s_to_xy s in
      set_cell x y EMPTY ;;;
      destroy_cells rest
  end.

Definition destroy_group (s : jstring) : M Z :=
  group <- group_at s ;;
  destroy_cells group ;;;
  ret (Z.of_nat (length group)).

Fixpoint empty_neighbour_loop (ns : list jstring) : M jsval :=
  match ns with
  | [] => ret JNull
  | neighbour :: rest =>
      c <- state_at neighbour ;;
      if stone_eqb c EMPTY then ret (JStr neighbour)
      else empty_neighbour_loop rest
  end.

Definition empty_neighbour (s : jstring) : M jsval :=
  empty_neighbour_loop (neighbours s).

Fixpoint one_liberty_singleton_loop (colour : stone) (ns : list jstring)
         (liberties : Z) : M bool :=
  match ns with
  | [] => ret (liberties =? 1)
  | neighbour :: rest =>
      neighbour_colour <- state_at neighbour ;;
      if stone_eqb neighbour_colour colour then ret false
      else
        one_liberty_singleton_loop colour rest
          (if stone_eqb neighbour_colour EMPTY
           then liberties + 1 else liberties)
  end.

Definition one_liberty_singleton (s : jstring) : M bool :=
  colour <- state_at s ;;
  if stone_eqb colour EMPTY then ret false
  else one_liberty_singleton_loop colour (neighbours s) 0.

(** ** legal_move *)

Fixpoint legal_move_loop1 (ns : list jstring) : M bool :=
  match ns with
  | [] => ret false
  | neighbour :: rest =>
      c <- state_at neighbour ;;
      if stone_eqb c EMPTY then ret true
      else legal_move_loop1 rest
  end.

Fixpoint legal_move_loop2 (s : jstring) (ns : list jstring) : M bool :=
  match ns with
  | [] => ret false
  | neighbour :: rest =>
      c <- state_at neighbour ;;
      p <- get_player ;;
      if stone_eqb c p then
        h <- has_liberties neighbour (Some (touch s [])) ;;
        if h then ret true else legal_move_loop2 s rest
      else
        c' <- state_at neighbour ;;
        if negb (stone_eqb c' EMPTY) then
          h <- has_liberties neighbour (Some (touch s [])) ;;
          if negb h then ret true else legal_move_loop2 s rest
        else legal_move_loop2 s rest
  end.

Definition legal_move (v : jsval) : M bool :=
  if negb (in_bounds v) then ret false
  else
    c <- state_at v ;;
    if negb (stone_eqb c EMPTY) then ret false
    else
      k <- get_ko ;;
      if strict_eq k v then ret false
      else
        match v with
        | JStr s =>
            let all_neighbours := neighbours s in
            found <- legal_move_loop1 all_neighbours ;;
            if found then ret true
            else legal_move_loop2 s all_neighbours
        | _ => ret false
        end.

(** ** play *)

Fixpoint play_loop (colour : stone) (ns : list jstring) (caps : Z) : M Z :=
  match ns with
  | [] => ret caps
  | neighbour :: rest =>
      neighbour_colour <- state_at neighbour ;;
      if negb (stone_eqb neighbour_colour EMPTY)
         && negb (stone_eqb neighbour_colour colour)
      then
        h <- has_liberties neighbour None ;;
        if negb h then
          n <- destroy_group neighbour ;;
          play_loop colour rest (caps + n)
        else play_loop colour rest caps
      else play_loop colour rest caps
  end.

Definition play (v : jsval) : M unit :=
  colour <- get_player ;;
  set_ko JNull ;;;
  p <- get_player ;;
  set_player (if stone_eqb p BLACK then WHITE else BLACK) ;;;
  if negb (in_bounds v) then ret tt
  else
    match v with
    | JStr s =>
        let '(x, y) := s_to_xy s in
        set_cell x y colour ;;;
        caps <- play_loop colour (neighbours s) 0 ;;
        h <- has_liberties s None ;;
        (if negb h then destroy_group s ;;; ret tt else ret tt) ;;;
        if caps =? 1 then
          single <- one_liberty_singleton s ;;
          if single then
            k <- empty_neighbour s ;;
            set_ko k
          else ret tt
        else ret tt
    | _ => ret tt
    end.

(** ** The sibling script's guarded entry point *)

Module Sibling.

(** [has_liberties_recurse(s, touched)] has the body of the main script's
    [has_liberties] without the default for [touched]. *)
Definition has_liberties_recurse (s : jstring) (touched : tset) : M bool :=
  r <- has_liberties_fuel FUEL s touched ;;
  ret (fst r).

Definition has_liberties (s : jstring) : M bool :=
  c <- state_at s ;;
  if stone_eqb c EMPTY then ret false
  else has_liberties_recurse s [].

(** The second loop of the sibling's [legal_move], which compares the
    neighbour with [inactive], computed once before the loop. *)
Fixpoint legal_move_loop2 (s : jstring) (inactive : stone)
         (ns : list jstring) : M bool :=
  match ns with
  | [] => ret false
  | neighbour :: rest =>
      c <- state_at neighbour ;;
      p <- get_player ;;
      if stone_eqb c p then
        h <- has_liberties_recurse neighbour (touch s []) ;;
        if h then ret true else legal_move_loop2 s inactive rest
      else
        c' <- state_at neighbour ;;
        if stone_eqb c' inactive then
          h <- has_liberties_recurse neighbour (touch s []) ;;
          if negb h then ret true else legal_move_loop2 s inactive rest
        else legal_move_loop2 s inactive rest
  end.

(** The sibling tests [state_at(s)] for truthiness; its first loop is the
    main script's. *)
Definition legal_move (v : jsval) : M bool :=
  if negb (in_bounds v) then ret false
  else
    c <- state_at v ;;
    if negb (stone_eqb c EMPTY) then ret false
    else
      k <- get_ko ;;
      if strict_eq k v then ret false
      else
        match v with
        | JStr s =>
            let neigh := neighbours s in
            found <- legal_move_loop1 neigh ;;
            if found then ret true
            else
              p <- get_player ;;
              let inactive := if stone_eqb p BLACK then WHITE else BLACK in
              legal_move_loop2 s inactive neigh
        | _ => ret false
        end.

(** The sibling's [destroy_group] also reads [state_at(s)], and does not
    use it. *)
Definition destroy_group (s : jstring) : M Z :=
  group <- group_at s ;;
  colour <- state_at s ;;
  destroy_cells group ;;;
  ret (Z.of_nat (length group)).

Fixpoint play_loop (colour : stone) (ns : list jstring) (caps : Z) : M Z :=
  match ns with
  | [] => ret caps
  | neighbour :: rest =>
      neighbour_colour <- state_at neighbour ;;
      if negb (stone_eqb neighbour_colour EMPTY)
         && negb (stone_eqb neighbour_colour colour)
      then
        h <- has_liberties neighbour ;;
        if negb h then
          n <- destroy_group neighbour ;;
          play_loop colour rest (caps + n)
        else play_loop colour rest caps
      else play_loop colour rest caps
  end.

Definition play (v : jsval) : M unit :=
  colour <- get_player ;;
  set_ko JNull ;;;
  p <- get_player ;;
  set_player (if stone_eqb p BLACK then WHITE else BLACK) ;;;
  if negb (in_bounds v) then ret tt
  else
    match v with
    | JStr s =>
        let x := charCodeAt s 0 - 97 in
        let y := charCodeAt s 1 - 97 in
        set_cell x y colour ;;;
        caps <- play_loop colour (neighbours s) 0 ;;
        h <- has_liberties s ;;
        (if negb h then destroy_group s ;;; ret tt else ret tt) ;;;
        if caps =? 1 then
          single <- one_liberty_singleton s ;;
          if single then
            k <- empty_neighbour s ;;
            set_ko k
          else ret tt
        else ret tt
    | _ => ret tt
    end.

End Sibling.

(** ** Canvas coordinates and the mouse handler *)

(** Pixel offsets are taken to be integers, as mouse events report them;
    [Math.floor(gx / square_size)] is then the floor division of [Z]. *)
Definition square_size : Z := 40.

Definition xy_to_canvas_xy (x y : Z) : Z * Z :=
  (x * square_size + square_size / 2, y * square_size + square_size / 2).

Definition canvas_xy_to_xy (gx gy : Z) : Z * Z :=
  let x := gx / square_size in
  let y := gy / square_size in
  let x := if x <? 0 then 0 else x in
  let x := if x >=? 19 then 19 - 1 else x in
  let y := if y <? 0 then 0 else y in
  let y := if y >=? 19 then 19 - 1 else y in
  (x, y).

(** The [mousedown] listener. [draw] only reads [board] and paints the
    canvas, which is not part of the state. *)
Definition on_mousedown (offsetX offsetY : Z) : M unit :=
  let '(x, y) := canvas_xy_to_xy offsetX offsetY in
  let s := xy_to_s x y in
  ok <- legal_move s ;;
  if ok then play s else ret tt.

(** * Vocabulary of the specification *)

(** [s] is the name of the point [(x, y)] of the board. *)
Definition names (s : jstring) (x y : Z) : Prop :=
  0 <= x < 19 /\ 0 <= y < 19 /\ s = xy_to_s x y.

(** The board with the cell of an in-bounds point overwritten, as
    [let [x, y] = s_to_xy(s); board[x][y] = c] does. *)
Definition put (b : Board) (s : jstring) (c : stone) : Board :=
  let '(x, y) := s_to_xy s in board_set b x y c.

Definition jstring_eq_dec (a b : jstring) : {a = b} + {a <> b} :=
  list_eq_dec N.eq_dec a b.

(** The 361 points of the board. *)
Definition coords : list Z := map Z.of_nat (seq 0 19).

Definition all_points : list jstring :=
  flat_map (fun x => map (fun y => xy_to_s x y) coords) coords.

(** How many points of the board are not yet keys of [touched]. *)
Definition untouched (t : tset) : nat :=
  length (filter (fun p => negb (touched_has t p)) all_points).

(** [conn b s q]: a path of neighbouring points, all holding what [s]
    holds, leads from [s] to [q]. For a stone [s] these are the members of
    its group. *)
Inductive conn (b : Board) : jstring -> jstring -> Prop :=
| conn_refl (s : jstring) : conn b s s
| conn_step (s n q : jstring) :
    In n (neighbours s) -> cell b n = cell b s -> conn b n q -> conn b s q.

(** [e] is a liberty of the group of [s]. *)
Definition liberty (b : Board) (s e : jstring) : Prop :=
  exists q, conn b s q /\ In e (neighbours q) /\ cell b e = EMPTY.

(** Every neighbour of [q] is touched or holds a stone of another colour
    than [c]. *)
Definition closed_at (b : Board) (c : stone) (t : tset) (q : jstring) : Prop :=
  forall e, In e (neighbours q) ->
            In e t \/ (cell b e <> EMPTY /\ cell b e <> c).

(** What a call [has_liberties(s, touched)] that returned [r] and left
    [touched] as [t'] has established. *)
Record liberties_post (b : Board) (s : jstring) (t : tset)
       (r : bool) (t' : tset) : Prop := {
  lp_incl : incl t t';
  lp_self : In s t';
  lp_conn : forall q, In q t' -> In q t \/ conn b s q;
  lp_false : r = false ->
             forall q, In q t' -> ~ In q t \/ q = s ->
                       closed_at b (cell b s) t' q;
  lp_true : r = true ->
            exists q e, conn b s q /\ In e (neighbours q) /\
                        cell b e = EMPTY /\ ~ In e t
}.

(** What a call [group_at_recurse(s, touched)] that left [touched] as [t']
    has established. *)
Record group_post (b : Board) (s : jstring) (t t' : tset) : Prop := {
  gp_incl : incl t t';
  gp_self : In s t';
  gp_conn : forall q, In q t' -> In q t \/ conn b s q;
  gp_closed : forall q, In q t' -> ~ In q t \/ q = s ->
              forall e, In e (neighbours q) -> cell b e = cell b s ->
                        In e t';
  gp_nodup : NoDup t -> NoDup t'
}.

(** The board after the cells of the listed points are set to [EMPTY] in
    turn, as the loop of [destroy_group] does. *)
Definition clear (b : Board) (g : list jstring) : Board :=
  fold_left (fun b' q => put b' q EMPTY) g b.

(** A stone of the side that is not [colour]. *)
Definition enemy (colour c : stone) : Prop := c <> EMPTY /\ c <> colour.

(** [b'] is [b] with the stones listed in [L] taken off, whole groups at a
    time, and nothing else changed. *)
Record removal (b b' : Board) (L : list jstring) : Prop := {
  rm_nodup : NoDup L;
  rm_mem : forall q, In q L <-> (cell b q <> EMPTY /\ cell b' q = EMPTY);
  rm_frame : forall q : jstring, cell b' q = cell b q \/ cell b' q = EMPTY;
  rm_whole : forall q q', conn b q q' -> cell b' q = EMPTY ->
                          cell b' q' = EMPTY
}.

(** The empty neighbours of a point, in the order [neighbours] lists them. *)
Definition empty_neighbours (b : Board) (s : jstring) : list jstring :=
  filter (fun n : jstring => stone_eqb (cell b n) EMPTY) (neighbours s).

(** A stone with no neighbour of its own colour and exactly one empty
    neighbour. *)
Definition lone_stone (b : Board) (s : jstring) : bool :=
  negb (stone_eqb (cell b s) EMPTY) &&
  forallb (fun n : jstring => negb (stone_eqb (cell b n) (cell b s)))
          (neighbours s) &&
  Nat.eqb (length (empty_neighbours b s)) 1.

(** The side to move after [c] has moved. *)
Definition other (c : stone) : stone :=
  if stone_eqb c BLACK then WHITE else BLACK.

(** The states a game can be in: the start, and what [play] makes of a
    reachable state when handed a move that [legal_move] accepts or a
    pass. *)
Inductive reachable : GameState -> Prop :=
| reach_init : reachable initial_state
| reach_move (st st' : GameState) (v : jsval) :
    reachable st -> legal_move v st = Some (true, st) ->
    play v st = Some (tt, st') -> reachable st'
| reach_pass (st st' : GameState) (v : jsval) :
    reachable st -> in_bounds v = false ->
    play v st = Some (tt, st') -> reachable st'.

(** Plays the moves in turn, refusing an in-bounds move that [legal_move]
    rejects. *)
Fixpoint run_game (moves : list jsval) (st : GameState) : option GameState :=
  match moves with
  | [] => Some st
  | v :: rest =>
      match legal_move v st with
      | Some (ok, _) =>
          if ok || negb (in_bounds v) then
            match play v st with
            | Some (_, st') => run_game rest st'
            | None => None
            end
          else None
      | None => None
      end
  end.

(** The group of [s] has no liberty. *)
Definition no_liberty (b : Board) (s : jstring) : Prop :=
  forall e, ~ liberty b s e.

(** Every group of the other side next to [s] has a liberty, so a stone of
    [colour] standing on [s] captures nothing. *)
Definition captures_nothing (b : Board) (s : jstring) (colour : stone) : Prop :=
  forall n, In n (neighbours s) -> enemy colour (cell b n) ->
            exists e, liberty b n e.

(** A position in which a capture made a ko: Black takes the white stone on
    "bb" by playing "cb". *)
Definition ko_moves : list jsval :=
  [JStr (js "ab"); JStr (js "ca"); JStr (js "ba"); JStr (js "cc");
   JStr (js "bc"); JStr (js "db"); JNull; JStr (js "bb"); JStr (js "cb")].

Definition ko_position : GameState := Eval vm_compute in
  match run_game ko_moves initial_state with
  | Some st => st
  | None => initial_state
  end.

(** The position before the capturing move of [ko_moves]. *)
Definition ko_setup : GameState := Eval vm_compute in
  match run_game (removelast ko_moves) initial_state with
  | Some st => st
  | None => initial_state
  end.

(** White stones on "ab" and "ba", Black to move: "aa" is suicide. *)
Definition corner_position : GameState :=
  {| board := put (put initial_board (js "ab") WHITE) (js "ba") WHITE;
     player := BLACK; ko := JNull |}.

(** The stones of the side that did not move that stood on [b1] and are
    gone on [b']. *)
Definition captured_stones (colour : stone) (b1 b' : Board) : list jstring :=
  filter (fun q : jstring =>
            negb (stone_eqb (cell b1 q) EMPTY) &&
            negb (stone_eqb (cell b1 q) colour) &&
            stone_eqb (cell b' q) EMPTY) all_points.

(** [e] is an empty neighbour of [p], and the only one. *)
Definition only_empty_neighbour (b : Board) (p e : jstring) : Prop :=
  In e (neighbours p) /\ cell b e = EMPTY /\
  forall e', In e' (neighbours p) -> cell b e' = EMPTY -> e' = e.

(** The shape that makes a ko: one stone was captured, and the stone just
    played on [p] has no neighbour of its colour and one empty neighbour. *)
Definition ko_shape (colour : stone) (b1 b' : Board) (p : jstring) : Prop :=
  length (captured_stones colour b1 b') = 1%nat /\
  (forall n, In n (neighbours p) -> cell b' n <> colour) /\
  exists e, only_empty_neighbour b' p e.

(** Every stone on the board belongs to a group that has a liberty. *)
Definition alive (b : Board) : Prop :=
  forall m : jstring, cell b m <> EMPTY -> exists e, liberty b m e.

(** * Geometry of the grid *)

Lemma fromCharCode_small (n : Z) :
  0 <= n < 65536 -> Z.of_N (fromCharCode n) = n.
Proof.
  intros H. unfold fromCharCode.
  rewrite Z.mod_small by lia. rewrite Z2N.id; lia.
Qed.

Lemma s_to_xy_xy_to_s (x y : Z) :
  0 <= x < 19 -> 0 <= y < 19 -> s_to_xy (xy_to_s x y) = (x, y).
Proof.
  intros Hx Hy. unfold s_to_xy, xy_to_s, charCodeAt. cbn [nth].
  rewrite !fromCharCode_small by lia. f_equal; lia.
Qed.

Lemma in_bounds_xy_to_s (x y : Z) :
  0 <= x < 19 -> 0 <= y < 19 -> in_bounds (xy_to_s x y) = true.
Proof.
  intros Hx Hy. unfold in_bounds.
  rewrite s_to_xy_xy_to_s by assumption. cbn.
  repeat (apply andb_true_intro; split); lia.
Qed.

Lemma in_bounds_names (s : jstring) :
  in_bounds s = true -> exists x y, names s x y /\ s_to_xy s = (x, y).
Proof.
  unfold in_bounds. destruct s as [|a [|b [|c s]]]; cbn; try discriminate.
  unfold charCodeAt; cbn [nth]. intros H.
  repeat (apply andb_prop in H; destruct H as [H ?]).
  exists (Z.of_N a - 97), (Z.of_N b - 97).
  split; [|reflexivity].
  repeat split; try lia.
  unfold xy_to_s, fromCharCode.
  rewrite !Z.mod_small by lia.
  replace (Z.of_N a - 97 + 97) with (Z.of_N a) by lia.
  replace (Z.of_N b - 97 + 97) with (Z.of_N b) by lia.
  now rewrite !N2Z.id.
Qed.

Lemma names_in_bounds (s : jstring) (x y : Z) :
  names s x y -> in_bounds s = true /\ s_to_xy s = (x, y).
Proof.
  intros (Hx & Hy & ->). split.
  - now apply in_bounds_xy_to_s.
  - now apply s_to_xy_xy_to_s.
Qed.

Lemma names_inj (s t : jstring) (x y : Z) :
  names s x y -> names t x y -> s = t.
Proof. intros (_ & _ & ->) (_ & _ & ->). reflexivity. Qed.

Lemma names_fun (s : jstring) (x y x' y' : Z) :
  names s x y -> names s x' y' -> x = x' /\ y = y'.
Proof.
  intros H1 H2. apply names_in_bounds in H1, H2.
  destruct H1 as [_ H1], H2 as [_ H2]. rewrite H1 in H2.
  inversion H2. auto.
Qed.

(** Two points are neighbours exactly when one coordinate differs by one. *)
Lemma neighbours_spec (s n : jstring) :
  In n (neighbours s) <->
  exists x y x' y', names s x y /\ names n x' y' /\
                    Z.abs (x - x') + Z.abs (y - y') = 1.
Proof.
  split.
  - unfold neighbours. destruct (in_bounds s) eqn:Hs; cbn [negb]; [|intros []].
    destruct (in_bounds_names _ Hs) as (x & y & Hn & ->).
    pose proof Hn as (Hx & Hy & Hs').
    intros H. exists x, y.
    repeat (apply in_app_or in H; destruct H as [H|H]).
    + destruct (Z.ltb_spec x (19 - 1)); [|destruct H].
      destruct H as [<-|[]]. exists (x + 1), y.
      repeat split; auto; lia.
    + destruct (Z.gtb_spec x 0); [|destruct H].
      destruct H as [<-|[]]. exists (x - 1), y.
      repeat split; auto; lia.
    + destruct (Z.ltb_spec y (19 - 1)); [|destruct H].
      destruct H as [<-|[]]. exists x, (y + 1).
      repeat split; auto; lia.
    + destruct (Z.gtb_spec y 0); [|destruct H].
      destruct H as [<-|[]]. exists x, (y - 1).
      repeat split; auto; lia.
  - intros (x & y & x' & y' & Hs & Hn & Hd).
    destruct (names_in_bounds Hs) as [Hb Hxy].
    unfold neighbours. rewrite Hb, Hxy. cbn [negb].
    destruct Hs as (Hx & Hy & _), Hn as (Hx' & Hy' & ->).
    assert (C : (x' = x + 1 /\ y' = y) \/ (x' = x - 1 /\ y' = y) \/
                (x' = x /\ y' = y + 1) \/ (x' = x /\ y' = y - 1)) by lia.
    rewrite !in_app_iff.
    destruct C as [[-> ->]|[[-> ->]|[[-> ->]|[-> ->]]]].
    + left. destruct (Z.ltb_spec x (19 - 1)); [now left|lia].
    + right; left. destruct (Z.gtb_spec x 0); [now left|lia].
    + right; right; left. destruct (Z.ltb_spec y (19 - 1)); [now left|lia].
    + right; right; right. destruct (Z.gtb_spec y 0); [now left|lia].
Qed.

Lemma neighbours_in_bounds (s n : jstring) :
  In n (neighbours s) -> in_bounds n = true.
Proof.
  intros H. apply neighbours_spec in H.
  destruct H as (x & y & x' & y' & _ & Hn & _).
  now apply names_in_bounds in Hn.
Qed.

Lemma neighbours_sym (s n : jstring) :
  In n (neighbours s) -> In s (neighbours n).
Proof.
  rewrite !neighbours_spec.
  intros (x & y & x' & y' & Hs & Hn & Hd).
  exists x', y', x, y. split; [exact Hn|split; [exact Hs|lia]].
Qed.

Lemma neighbours_irrefl (s : jstring) : ~ In s (neighbours s).
Proof.
  rewrite neighbours_spec.
  intros (x & y & x' & y' & Hs & Hn & Hd).
  destruct (names_fun Hs Hn); lia.
Qed.

Lemma xy_to_s_inj (x y x' y' : Z) :
  0 <= x < 19 -> 0 <= y < 19 -> 0 <= x' < 19 -> 0 <= y' < 19 ->
  xy_to_s x y = xy_to_s x' y' -> x = x' /\ y = y'.
Proof.
  intros Hx Hy Hx' Hy' H.
  assert (H1 := s_to_xy_xy_to_s Hx Hy).
  rewrite H, (s_to_xy_xy_to_s Hx' Hy') in H1.
  inversion H1. auto.
Qed.

(** No point is listed twice among the neighbours. *)
Lemma NoDup_neighbours (s : jstring) : NoDup (neighbours s).
Proof.
  unfold neighbours. destruct (in_bounds s) eqn:Hs; cbn [negb];
    [|constructor].
  destruct (in_bounds_names _ Hs) as (x & y & (Hx & Hy & _) & ->).
  assert (Hne : forall a b a' b',
            0 <= a < 19 -> 0 <= b < 19 -> 0 <= a' < 19 -> 0 <= b' < 19 ->
            a <> a' \/ b <> b' -> xy_to_s a b <> xy_to_s a' b').
  { intros a b a' b' Ha Hb Ha' Hb' Hd He.
    destruct (xy_to_s_inj Ha Hb Ha' Hb' He). lia. }
  destruct (Z.ltb_spec x (19 - 1)), (Z.gtb_spec x 0),
    (Z.ltb_spec y (19 - 1)), (Z.gtb_spec y 0); cbn [app];
    repeat (constructor; [cbn [In]; intuition (try (eapply Hne; [| | | | |eassumption]; lia))|]);
    constructor.
Qed.

(** * The board as a map from points to stones *)

Lemma length_list_upd {A} (n : nat) (f : A -> A) (l : list A) :
  length (list_upd n f l) = length l.
Proof.
  revert n; induction l as [|a l IH]; intros [|n]; cbn; auto.
Qed.

Lemma nth_list_upd_same {A} (n : nat) (f : A -> A) (l : list A) (d : A) :
  (n < length l)%nat -> nth n (list_upd n f l) d = f (nth n l d).
Proof.
  revert n; induction l as [|a l IH]; intros [|n] H; cbn in *;
    try lia; auto. apply IH; lia.
Qed.

Lemma nth_list_upd_other {A} (n m : nat) (f : A -> A) (l : list A) (d : A) :
  n <> m -> nth m (list_upd n f l) d = nth m l d.
Proof.
  revert n m; induction l as [|a l IH]; intros [|n] [|m] H; cbn;
    try congruence; auto.
Qed.

Lemma Forall_list_upd {A} (P : A -> Prop) (n : nat) (f : A -> A) (l : list A) :
  (forall a, P a -> P (f a)) -> Forall P l -> Forall P (list_upd n f l).
Proof.
  intros Hf. revert n; induction l as [|a l IH]; intros [|n] H; cbn; auto;
    inversion H; subst; constructor; auto.
Qed.

Lemma wf_board_set (b : Board) (x y : Z) (c : stone) :
  wf_board b -> wf_board (board_set b x y c).
Proof.
  intros [Hl Hc]. split.
  - unfold board_set. now rewrite length_list_upd.
  - apply Forall_list_upd; auto.
    intros col Hcol. now rewrite length_list_upd.
Qed.

Lemma wf_board_column (b : Board) (x : nat) :
  wf_board b -> (x < 19)%nat -> length (nth x b []) = 19%nat.
Proof.
  intros [Hl Hc] Hx. rewrite Forall_forall in Hc.
  apply Hc, nth_In. lia.
Qed.

Lemma wf_initial_board : wf_board initial_board.
Proof.
  split; [reflexivity|].
  unfold initial_board. apply Forall_forall. intros col H.
  apply repeat_spec in H. now subst.
Qed.

Lemma wf_put (b : Board) (s : jstring) (c : stone) :
  wf_board b -> wf_board (put b s c).
Proof. unfold put. destruct (s_to_xy s). apply wf_board_set. Qed.

Lemma cell_out_of_bounds (b : Board) (v : jsval) :
  in_bounds v = false -> cell b v = EMPTY.
Proof. unfold cell. now intros ->. Qed.

Lemma cell_names (b : Board) (s : jstring) (x y : Z) :
  names s x y -> cell b s = board_get b x y.
Proof.
  intros H. destruct (names_in_bounds H) as [Hb Hxy].
  unfold cell. now rewrite Hb, Hxy.
Qed.

Lemma cell_put_same (b : Board) (s : jstring) (c : stone) :
  wf_board b -> in_bounds s = true -> cell (put b s c) s = c.
Proof.
  intros Hwf Hb. destruct (in_bounds_names _ Hb) as (x & y & Hn & Hxy).
  unfold put. rewrite Hxy, (cell_names _ Hn).
  destruct Hn as (Hx & Hy & _).
  unfold board_get, board_set.
  rewrite nth_list_upd_same by (destruct Hwf as [-> _]; lia).
  rewrite nth_list_upd_same by (rewrite wf_board_column; auto; lia).
  reflexivity.
Qed.

Lemma cell_put_other (b : Board) (s q : jstring) (c : stone) :
  in_bounds s = true -> q <> s -> cell (put b s c) q = cell b q.
Proof.
  intros Hb Hq. destruct (in_bounds_names _ Hb) as (x & y & Hn & Hxy).
  unfold put. rewrite Hxy.
  destruct (in_bounds q) eqn:Hbq.
  2:{ now rewrite !cell_out_of_bounds. }
  destruct (in_bounds_names _ Hbq) as (x' & y' & Hn' & _).
  rewrite !(cell_names _ Hn').
  assert (Hne : x <> x' \/ (x = x' /\ y <> y')).
  { destruct (Z.eq_dec x x') as [->|]; [|now left].
    destruct (Z.eq_dec y y') as [->|]; [|now right].
    exfalso. apply Hq. eapply names_inj; eauto. }
  destruct Hn as (Hx & Hy & _), Hn' as (Hx' & Hy' & _).
  unfold board_get, board_set.
  destruct Hne as [Hne|[<- Hne]].
  - rewrite nth_list_upd_other by lia. reflexivity.
  - destruct (Nat.lt_ge_cases (Z.to_nat x) (length b)) as [Hlt|Hge].
    + rewrite nth_list_upd_same by assumption.
      rewrite nth_list_upd_other by lia. reflexivity.
    + rewrite !(nth_overflow _ []); auto.
      now rewrite length_list_upd.
Qed.

(** * Sets of touched points *)

Lemma jstring_eqb_eq (a b : jstring) : jstring_eqb a b = true <-> a = b.
Proof.
  unfold jstring_eqb. destruct (list_eq_dec N.eq_dec a b); split;
    congruence.
Qed.

Lemma touched_has_In (t : tset) (s : jstring) :
  touched_has t s = true <-> In s t.
Proof.
  unfold touched_has. rewrite existsb_exists. split.
  - intros (x & Hx & He). apply jstring_eqb_eq in He. now subst.
  - intros H. exists s. split; auto. now apply jstring_eqb_eq.
Qed.

Lemma touched_has_not_In (t : tset) (s : jstring) :
  touched_has t s = false <-> ~ In s t.
Proof.
  rewrite <- touched_has_In. destruct (touched_has t s); split; congruence.
Qed.

Lemma In_touch (s q : jstring) (t : tset) :
  In q (touch s t) <-> q = s \/ In q t.
Proof.
  unfold touch. destruct (touched_has t s) eqn:H.
  - apply touched_has_In in H. split; [now right|].
    intros [->|]; auto.
  - rewrite in_app_iff. cbn. intuition.
Qed.

Lemma NoDup_touch (s : jstring) (t : tset) : NoDup t -> NoDup (touch s t).
Proof.
  intros H. unfold touch. destruct (touched_has t s) eqn:Hs; auto.
  apply touched_has_not_In in Hs.
  apply NoDup_app; auto.
  - repeat constructor. intros [].
  - intros a Ha [<-|[]]. contradiction.
Qed.

(** * Counting the points still untouched *)

Lemma In_coords (x : Z) : In x coords <-> 0 <= x < 19.
Proof.
  unfold coords. rewrite in_map_iff. split.
  - intros (n & <- & Hn). apply in_seq in Hn. lia.
  - intros H. exists (Z.to_nat x). split; [lia|]. apply in_seq. lia.
Qed.

Lemma In_all_points (s : jstring) : In s all_points <-> in_bounds s = true.
Proof.
  unfold all_points. rewrite in_flat_map. split.
  - intros (x & Hx & H). apply in_map_iff in H.
    destruct H as (y & <- & Hy). apply In_coords in Hx, Hy.
    now apply in_bounds_xy_to_s.
  - intros H. destruct (in_bounds_names _ H) as (x & y & (Hx & Hy & ->) & _).
    exists x. split; [now apply In_coords|].
    apply in_map_iff. exists y. split; auto. now apply In_coords.
Qed.

Lemma NoDup_all_points : NoDup all_points.
Proof.
  assert (H : nodup jstring_eq_dec all_points = all_points)
    by (vm_compute; reflexivity).
  rewrite <- H. apply NoDup_nodup.
Qed.

Lemma filter_length_mono {A} (f g : A -> bool) (l : list A) :
  (forall a, In a l -> f a = true -> g a = true) ->
  (length (filter f l) <= length (filter g l))%nat.
Proof.
  induction l as [|a l IH]; intros H; cbn; auto.
  assert (IH' := IH (fun x Hx => H x (or_intror Hx))).
  destruct (f a) eqn:Hf.
  - rewrite (H a (or_introl eq_refl) Hf). cbn. lia.
  - destruct (g a); cbn; lia.
Qed.

Lemma filter_length_lt {A} (f g : A -> bool) (l : list A) (x : A) :
  (forall a, In a l -> f a = true -> g a = true) ->
  In x l -> f x = false -> g x = true ->
  (length (filter f l) < length (filter g l))%nat.
Proof.
  induction l as [|a l IH]; intros H Hx Hfx Hgx; [destruct Hx|].
  cbn. destruct Hx as [->|Hx].
  - rewrite Hfx, Hgx. cbn.
    assert (length (filter f l) <= length (filter g l))%nat.
    { apply filter_length_mono. intros; apply H; auto. now right. }
    lia.
  - assert (IH' := IH (fun a Ha => H a (or_intror Ha)) Hx Hfx Hgx).
    destruct (f a) eqn:Hf.
    + rewrite (H a (or_introl eq_refl) Hf). cbn. lia.
    + destruct (g a); cbn; lia.
Qed.

Lemma untouched_bound (t : tset) : (untouched t < FUEL)%nat.
Proof.
  unfold untouched.
  pose proof (filter_length_le (fun p => negb (touched_has t p)) all_points).
  assert (length all_points = 361%nat) by (vm_compute; reflexivity).
  unfold FUEL. lia.
Qed.

Lemma untouched_incl (t t' : tset) :
  incl t t' -> (untouched t' <= untouched t)%nat.
Proof.
  intros H. apply filter_length_mono. intros a _.
  rewrite !negb_true_iff, !touched_has_not_In. auto.
Qed.

Lemma untouched_touch (s : jstring) (t : tset) :
  in_bounds s = true -> ~ In s t ->
  (untouched (touch s t) < untouched t)%nat.
Proof.
  intros Hb Hs. apply filter_length_lt with (x := s).
  - intros a _. rewrite !negb_true_iff, !touched_has_not_In.
    rewrite In_touch. tauto.
  - now apply In_all_points.
  - rewrite negb_false_iff, touched_has_In, In_touch. now left.
  - now rewrite negb_true_iff, touched_has_not_In.
Qed.

(** * Connected stones *)

Lemma stone_eqb_eq (a b : stone) : stone_eqb a b = true <-> a = b.
Proof. destruct a, b; cbn; split; congruence. Qed.

Lemma stone_eqb_neq (a b : stone) : stone_eqb a b = false <-> a <> b.
Proof. destruct a, b; cbn; split; congruence. Qed.

Lemma conn_colour (b : Board) (s q : jstring) :
  conn b s q -> cell b q = cell b s.
Proof. induction 1; congruence. Qed.

Lemma conn_trans (b : Board) (s q r : jstring) :
  conn b s q -> conn b q r -> conn b s r.
Proof.
  induction 1; auto. intros Hr. eapply conn_step; eauto.
Qed.

Lemma conn_snoc (b : Board) (s q n : jstring) :
  conn b s q -> In n (neighbours q) -> cell b n = cell b q -> conn b s n.
Proof.
  intros H Hn Hc. apply conn_trans with q; auto.
  eapply conn_step; eauto. constructor.
Qed.

Lemma conn_sym (b : Board) (s q : jstring) : conn b s q -> conn b q s.
Proof.
  induction 1 as [s|s n q Hn Hc H IH]; [constructor|].
  eapply conn_snoc; eauto using neighbours_sym.
Qed.

(** * The liberty search *)

Lemma bind_state_at {A} (v : jsval) (k : stone -> M A) (st : GameState) :
  (c <- state_at v ;; k c) st = k (cell (board st) v) st.
Proof. reflexivity. Qed.

Section LibertyLoop.

Variable st : GameState.
Variable fuel' : nat.
Variable rec : jstring -> tset -> M (bool * tset).

Hypothesis rec_spec : forall n t,
  (untouched (touch n t) < fuel')%nat ->
  exists r t', rec n t st = Some ((r, t'), st) /\
               liberties_post (board st) n t r t'.

Lemma has_liberties_loop_spec (s : jstring) (ns : list jstring) :
  forall tk : tset,
  incl ns (neighbours s) -> In s tk -> (untouched tk <= fuel')%nat ->
  exists r t',
    has_liberties_loop rec (cell (board st) s) ns tk st = Some ((r, t'), st) /\
    incl tk t' /\
    (forall q, In q t' -> In q tk \/ conn (board st) s q) /\
    (r = false ->
     (forall q, In q t' -> ~ In q tk ->
                closed_at (board st) (cell (board st) s) t' q) /\
     (forall e, In e ns ->
                In e t' \/ (cell (board st) e <> EMPTY /\
                            cell (board st) e <> cell (board st) s))) /\
    (r = true ->
     exists q e, conn (board st) s q /\ In e (neighbours q) /\
                 cell (board st) e = EMPTY /\ ~ In e tk).
Proof.
  set (b := board st). set (c := cell b s).
  induction ns as [|n rest IH]; intros tk Hns Hs Hfuel.
  - exists false, tk. cbn [has_liberties_loop].
    split; [reflexivity|]. split; [apply incl_refl|]. split; [auto|].
    split; [|discriminate]. intros _. split.
    + intros q Hq Hq'. contradiction.
    + intros e [].
  - assert (Hn : In n (neighbours s)) by (apply Hns; now left).
    assert (Hrest : incl rest (neighbours s))
      by (intros x Hx; apply Hns; now right).
    cbn [has_liberties_loop].
    destruct (touched_has tk n) eqn:Htn.
    { (* already touched: continue *)
      apply touched_has_In in Htn.
      destruct (IH tk Hrest Hs Hfuel) as (r & t' & Hrun & Hinc & Hc & Hf & Ht).
      exists r, t'. split; [exact Hrun|]. split; [exact Hinc|].
      split; [exact Hc|]. split; [|exact Ht].
      intros Hr. destruct (Hf Hr) as [Hf1 Hf2]. split; [exact Hf1|].
      intros e [<-|He]; [left; auto|]. now apply Hf2. }
    apply touched_has_not_In in Htn.
    rewrite bind_state_at. fold b.
    destruct (stone_eqb (cell b n) EMPTY) eqn:He.
    { (* an empty neighbour: a liberty *)
      apply stone_eqb_eq in He.
      exists true, tk.
      split; [reflexivity|]. split; [apply incl_refl|]. split; [auto|].
      split; [discriminate|].
      intros _. exists s, n. split; [constructor|]. auto. }
    apply stone_eqb_neq in He.
    fold c. destruct (stone_eqb (cell b n) c) eqn:Hcol.
    2:{ (* a stone of the other colour: continue *)
      apply stone_eqb_neq in Hcol.
      destruct (IH tk Hrest Hs Hfuel) as (r & t' & Hrun & Hinc & Hc & Hf & Ht).
      exists r, t'. split; [exact Hrun|]. split; [exact Hinc|].
      split; [exact Hc|]. split; [|exact Ht].
      intros Hr. destruct (Hf Hr) as [Hf1 Hf2]. split; [exact Hf1|].
      intros e [<-|He']; [right; auto|]. now apply Hf2. }
    (* same colour: recurse *)
    apply stone_eqb_eq in Hcol.
    assert (Hlt : (untouched (touch n tk) < fuel')%nat).
    { pose proof (untouched_touch n tk (neighbours_in_bounds _ _ Hn) Htn).
      lia. }
    destruct (rec_spec n tk Hlt) as (r1 & t1 & Hrun1 & P1).
    unfold bind at 1. rewrite Hrun1. cbn [fst snd].
    assert (Hsn : forall q, conn b n q -> conn b s q).
    { intros q Hq. eapply conn_step; eauto. }
    destruct r1.
    { exists true, t1.
      split; [reflexivity|]. split; [apply P1|]. split; [|split].
      - intros q Hq. destruct (lp_conn P1 q Hq); auto.
      - discriminate.
      - intros _. destruct (lp_true P1 eq_refl) as (q & e & ? & ? & ? & ?).
        exists q, e. auto. }
    assert (Hs1 : In s t1) by (apply (lp_incl P1); auto).
    assert (Hfuel1 : (untouched t1 <= fuel')%nat).
    { pose proof (untouched_incl (lp_incl P1)). lia. }
    destruct (IH t1 Hrest Hs1 Hfuel1) as (r & t' & Hrun & Hinc & Hc & Hf & Ht).
    exists r, t'. split; [exact Hrun|].
    split; [eapply incl_tran; [apply P1|exact Hinc]|].
    split; [|split].
    + intros q Hq. destruct (Hc q Hq) as [H1|]; auto.
      destruct (lp_conn P1 q H1); auto.
    + intros ->. destruct (Hf eq_refl) as [Hf1 Hf2]. split.
      * intros q Hq Hqk.
        destruct (in_dec jstring_eq_dec q t1) as [Hq1|Hq1].
        -- assert (Hcl := @lp_false _ _ _ _ _ P1 eq_refl q Hq1 (or_introl Hqk)).
           change (closed_at b (cell b n) t1 q) in Hcl.
           rewrite Hcol in Hcl.
           intros e He'. destruct (Hcl e He') as [|]; auto.
        -- apply Hf1; auto.
      * intros e [<-|He']; [|now apply Hf2].
        left. apply Hinc. apply (lp_self P1).
    + intros ->. destruct (Ht eq_refl) as (q & e & ? & ? & ? & Hne).
      exists q, e. split; [auto|]. split; [auto|]. split; [auto|].
      intros Hek. apply Hne. apply (lp_incl P1); auto.
Qed.

End LibertyLoop.

Lemma has_liberties_fuel_spec (fuel : nat) :
  forall (s : jstring) (t : tset) (st : GameState),
  (untouched (touch s t) < fuel)%nat ->
  exists r t', has_liberties_fuel fuel s t st = Some ((r, t'), st) /\
               liberties_post (board st) s t r t'.
Proof.
  induction fuel as [|fuel IH]; intros s t st Hfuel; [lia|].
  cbn [has_liberties_fuel]. rewrite bind_state_at.
  assert (Hs : In s (touch s t)) by (apply In_touch; now left).
  assert (Ht : incl t (touch s t)) by (intros q Hq; apply In_touch; now right).
  destruct (@has_liberties_loop_spec st fuel (has_liberties_fuel fuel)
              (fun n t' => IH n t' st) s (neighbours s) (touch s t)
              (incl_refl _) Hs)
    as (r & t' & Hrun & Hinc & Hc & Hf & Htr); [lia|].
  exists r, t'. split; [exact Hrun|]. constructor.
  - eapply incl_tran; eauto.
  - auto.
  - intros q Hq. destruct (Hc q Hq) as [H1|]; auto.
    apply In_touch in H1. destruct H1 as [->|]; auto.
    right; constructor.
  - intros -> q Hq Hnew. destruct (Hf eq_refl) as [Hf1 Hf2].
    destruct (jstring_eq_dec q s) as [->|Hqs].
    + intros e He. now apply Hf2.
    + destruct Hnew as [Hnew|]; [|contradiction].
      apply Hf1; auto. rewrite In_touch. tauto.
  - intros ->. destruct (Htr eq_refl) as (q & e & ? & ? & ? & Hne).
    exists q, e. split; [auto|]. split; [auto|]. split; [auto|].
    intros He. apply Hne, Ht, He.
Qed.

(** With nothing of the group's colour excluded beforehand, the search
    decides whether the group of the stone [s] has a liberty outside [t]. *)
Lemma liberties_post_false (b : Board) (s : jstring) (t t' : tset) :
  cell b s <> EMPTY ->
  (forall x, In x t -> cell b x <> cell b s) ->
  liberties_post b s t false t' ->
  forall e, liberty b s e -> In e t.
Proof.
  intros Hs Ht P e (q & Hq & He & Hempty).
  assert (Hmem : forall a q', conn b a q' -> cell b a = cell b s ->
                         In a t' -> In q' t' /\ ~ In q' t).
  { induction 1 as [a|a n q' Hn Hc Hq' IH]; intros Ha Hat.
    - split; auto. intros Hin. apply (Ht _ Hin). exact Ha.
    - apply IH; [congruence|].
      assert (Hnew : ~ In a t) by (intros Hin; apply (Ht _ Hin); exact Ha).
      destruct (@lp_false _ _ _ _ _ P eq_refl a Hat (or_introl Hnew) n Hn)
        as [|[_ Hne]]; auto.
      exfalso. apply Hne. congruence. }
  destruct (Hmem s q Hq eq_refl (lp_self P)) as [Hqt' Hqt].
  destruct (@lp_false _ _ _ _ _ P eq_refl q Hqt' (or_introl Hqt) e He)
    as [Het'|[Hne _]]; [|contradiction].
  destruct (lp_conn P _ Het') as [|Hconn]; auto.
  apply conn_colour in Hconn. congruence.
Qed.

Lemma has_liberties_run (s : jstring) (topt : option tset) (st : GameState) :
  exists r t',
    has_liberties s topt st = Some (r, st) /\
    liberties_post (board st) s
      (match topt with None => [] | Some t => t end) r t'.
Proof.
  unfold has_liberties.
  set (t := match topt with None => [] | Some t => t end).
  destruct (@has_liberties_fuel_spec FUEL s t st (untouched_bound _))
    as (r & t' & Hrun & P).
  exists r, t'. split; auto.
  unfold bind. now rewrite Hrun.
Qed.

Lemma has_liberties_correct (s : jstring) (topt : option tset)
      (st : GameState) :
  let t := match topt with None => [] | Some t => t end in
  cell (board st) s <> EMPTY ->
  (forall x, In x t -> cell (board st) x <> cell (board st) s) ->
  exists r,
    has_liberties s topt st = Some (r, st) /\
    (r = true -> exists e, liberty (board st) s e /\ ~ In e t) /\
    (r = false -> forall e, liberty (board st) s e -> In e t).
Proof.
  intros t Hs Ht.
  destruct (has_liberties_run s topt st) as (r & t' & Hrun & P).
  exists r. split; [exact Hrun|]. split.
  - intros ->. destruct (lp_true P eq_refl) as (q & e & ? & ? & ? & ?).
    exists e. split; auto. exists q. auto.
  - intros ->. eapply liberties_post_false; eauto.
Qed.

(** * The group flood fill *)

Section GroupLoop.

Variable st : GameState.
Variable fuel' : nat.
Variable rec : jstring -> tset -> M tset.

Hypothesis rec_spec : forall n t,
  (untouched (touch n t) < fuel')%nat ->
  exists t', rec n t st = Some (t', st) /\ group_post (board st) n t t'.

Lemma group_at_loop_spec (s : jstring) (ns : list jstring) :
  forall tk : tset,
  incl ns (neighbours s) -> In s tk -> (untouched tk <= fuel')%nat ->
  exists t',
    group_at_loop rec (cell (board st) s) ns tk st = Some (t', st) /\
    incl tk t' /\
    (forall q, In q t' -> In q tk \/ conn (board st) s q) /\
    (forall q, In q t' -> ~ In q tk ->
               forall e, In e (neighbours q) ->
                         cell (board st) e = cell (board st) s -> In e t') /\
    (forall e, In e ns -> cell (board st) e = cell (board st) s -> In e t') /\
    (NoDup tk -> NoDup t').
Proof.
  set (b := board st). set (c := cell b s).
  induction ns as [|n rest IH]; intros tk Hns Hs Hfuel.
  - exists tk. cbn [group_at_loop].
    split; [reflexivity|]. split; [apply incl_refl|]. split; [auto|].
    split; [|split; [|auto]].
    + intros q Hq Hq'. contradiction.
    + intros e [].
  - assert (Hn : In n (neighbours s)) by (apply Hns; now left).
    assert (Hrest : incl rest (neighbours s))
      by (intros x Hx; apply Hns; now right).
    cbn [group_at_loop].
    destruct (touched_has tk n) eqn:Htn.
    { apply touched_has_In in Htn.
      destruct (IH tk Hrest Hs Hfuel) as (t' & Hrun & Hinc & Hc & Hcl & Hl & Hd).
      exists t'. split; [exact Hrun|]. split; [exact Hinc|].
      split; [exact Hc|]. split; [exact Hcl|]. split; [|exact Hd].
      intros e [<-|He] Hce; auto. }
    apply touched_has_not_In in Htn.
    rewrite bind_state_at. fold b. fold c.
    destruct (stone_eqb (cell b n) c) eqn:Hcol.
    2:{ apply stone_eqb_neq in Hcol.
      destruct (IH tk Hrest Hs Hfuel) as (t' & Hrun & Hinc & Hc & Hcl & Hl & Hd).
      exists t'. split; [exact Hrun|]. split; [exact Hinc|].
      split; [exact Hc|]. split; [exact Hcl|]. split; [|exact Hd].
      intros e [<-|He] Hce; auto. contradiction. }
    apply stone_eqb_eq in Hcol.
    assert (Hlt : (untouched (touch n tk) < fuel')%nat).
    { pose proof (untouched_touch n tk (neighbours_in_bounds _ _ Hn) Htn).
      lia. }
    destruct (rec_spec n tk Hlt) as (t1 & Hrun1 & P1).
    unfold bind at 1. rewrite Hrun1.
    assert (Hsn : forall q, conn b n q -> conn b s q).
    { intros q Hq. eapply conn_step; eauto. }
    assert (Hs1 : In s t1) by (apply (gp_incl P1); auto).
    assert (Hfuel1 : (untouched t1 <= fuel')%nat).
    { pose proof (untouched_incl (gp_incl P1)). lia. }
    destruct (IH t1 Hrest Hs1 Hfuel1) as (t' & Hrun & Hinc & Hc & Hcl & Hl & Hd).
    exists t'. split; [exact Hrun|].
    split; [eapply incl_tran; [apply P1|exact Hinc]|].
    split; [|split; [|split]].
    + intros q Hq. destruct (Hc q Hq) as [H1|]; auto.
      destruct (gp_conn P1 q H1); auto.
    + intros q Hq Hqk e He Hce.
      destruct (in_dec jstring_eq_dec q t1) as [Hq1|Hq1].
      * apply Hinc.
        apply (@gp_closed _ _ _ _ P1 q Hq1 (or_introl Hqk) e He).
        change (cell b e = cell b n). congruence.
      * eapply Hcl; eauto.
    + intros e [<-|He] Hce; auto.
      apply Hinc, (gp_self P1).
    + intros Hnd. apply Hd, (gp_nodup P1), Hnd.
Qed.

End GroupLoop.

Lemma group_at_recurse_fuel_spec (fuel : nat) :
  forall (s : jstring) (t : tset) (st : GameState),
  (untouched (touch s t) < fuel)%nat ->
  exists t', group_at_recurse_fuel fuel s t st = Some (t', st) /\
             group_post (board st) s t t'.
Proof.
  induction fuel as [|fuel IH]; intros s t st Hfuel; [lia|].
  cbn [group_at_recurse_fuel]. rewrite bind_state_at.
  assert (Hs : In s (touch s t)) by (apply In_touch; now left).
  assert (Ht : incl t (touch s t)) by (intros q Hq; apply In_touch; now right).
  destruct (@group_at_loop_spec st fuel (group_at_recurse_fuel fuel)
              (fun n t' => IH n t' st) s (neighbours s) (touch s t)
              (incl_refl _) Hs)
    as (t' & Hrun & Hinc & Hc & Hcl & Hl & Hd); [lia|].
  exists t'. split; [exact Hrun|]. constructor.
  - eapply incl_tran; eauto.
  - auto.
  - intros q Hq. destruct (Hc q Hq) as [H1|]; auto.
    apply In_touch in H1. destruct H1 as [->|]; auto.
    right; constructor.
  - intros q Hq Hnew e He Hce.
    destruct (jstring_eq_dec q s) as [->|Hqs].
    + now apply Hl.
    + destruct Hnew as [Hnew|]; [|contradiction].
      eapply Hcl; eauto. rewrite In_touch. tauto.
  - intros Hnd. apply Hd, NoDup_touch, Hnd.
Qed.

(** [group_at] on a stone lists its group, each member once. *)
Lemma group_at_stone (s : jstring) (st : GameState) :
  cell (board st) s <> EMPTY ->
  exists g, group_at s st = Some (g, st) /\ NoDup g /\
            forall q, In q g <-> conn (board st) s q.
Proof.
  intros Hs. unfold group_at. rewrite bind_state_at.
  apply stone_eqb_neq in Hs. rewrite Hs.
  destruct (@group_at_recurse_fuel_spec FUEL s [] st (untouched_bound _))
    as (g & Hrun & P).
  exists g. unfold bind, group_at_recurse. rewrite Hrun.
  split; [reflexivity|]. split; [apply (gp_nodup P); constructor|].
  intros q. split.
  - intros Hq. destruct (gp_conn P q Hq) as [[]|]; auto.
  - assert (Hmem : forall a q', conn (board st) a q' ->
                     cell (board st) a = cell (board st) s ->
                     In a g -> In q' g).
    { induction 1 as [a|a n q' Hn Hc Hq' IH]; intros Ha Hag; auto.
      apply IH; [congruence|].
      eapply (gp_closed P); eauto. congruence. }
    intros Hq. eapply Hmem; eauto. apply (gp_self P).
Qed.

Lemma group_at_empty (s : jstring) (st : GameState) :
  cell (board st) s = EMPTY -> group_at s st = Some ([], st).
Proof.
  intros Hs. unfold group_at. rewrite bind_state_at, Hs. reflexivity.
Qed.

(** * legal_move *)

Lemma touch_nil (s : jstring) : touch s [] = [s].
Proof. reflexivity. Qed.

Lemma legal_move_loop1_run (ns : list jstring) (st : GameState) :
  legal_move_loop1 ns st =
  Some (existsb (fun n : jstring => stone_eqb (cell (board st) n) EMPTY) ns, st).
Proof.
  induction ns as [|n rest IH]; [reflexivity|].
  cbn [legal_move_loop1 existsb]. rewrite bind_state_at.
  destruct (stone_eqb (cell (board st) n) EMPTY); auto.
Qed.

Lemma legal_move_loop2_total (s : jstring) (ns : list jstring)
      (st : GameState) :
  exists r, legal_move_loop2 s ns st = Some (r, st).
Proof.
  induction ns as [|n rest IH]; [now exists false|].
  cbn [legal_move_loop2]. rewrite bind_state_at.
  unfold bind at 1, get_player at 1.
  destruct (has_liberties_run n (Some (touch s [])) st) as (h & t' & Hh & _).
  destruct (stone_eqb (cell (board st) n) (player st)).
  - unfold bind at 1. rewrite Hh. destruct h; [now exists true|exact IH].
  - rewrite bind_state_at.
    destruct (stone_eqb (cell (board st) n) EMPTY); cbn [negb]; [exact IH|].
    unfold bind at 1. rewrite Hh. destruct h; cbn [negb];
      [exact IH|now exists true].
Qed.

(** When no neighbour of the empty point [s] is empty, the second loop
    answers true only for one of its two reasons. *)
Lemma legal_move_loop2_true (s : jstring) (ns : list jstring)
      (st st' : GameState) :
  cell (board st) s = EMPTY ->
  (forall n, In n ns -> cell (board st) n <> EMPTY) ->
  legal_move_loop2 s ns st = Some (true, st') ->
  exists n, In n ns /\
    ((cell (board st) n = player st /\
      exists e, liberty (board st) n e /\ e <> s) \/
     (cell (board st) n <> player st /\
      forall e, liberty (board st) n e -> e = s)).
Proof.
  intros Hs. induction ns as [|n rest IH]; intros Hne Hrun.
  - discriminate.
  - assert (Hn : cell (board st) n <> EMPTY) by (apply Hne; now left).
    assert (Hrest : forall m, In m rest -> cell (board st) m <> EMPTY)
      by (intros m Hm; apply Hne; now right).
    assert (Ht : forall x, In x (touch s []) ->
                           cell (board st) x <> cell (board st) n).
    { intros x [<-|[]]. congruence. }
    destruct (has_liberties_correct n (Some (touch s [])) st Hn Ht)
      as (h & Hh & Htrue & Hfalse).
    cbn [legal_move_loop2] in Hrun. rewrite bind_state_at in Hrun.
    unfold bind at 1, get_player at 1 in Hrun.
    destruct (stone_eqb (cell (board st) n) (player st)) eqn:Hp.
    + apply stone_eqb_eq in Hp.
      unfold bind at 1 in Hrun. rewrite Hh in Hrun. destruct h.
      * exists n. split; [now left|]. left. split; auto.
        destruct (Htrue eq_refl) as (e & He & Hes).
        exists e. split; auto. intros ->. apply Hes. now left.
      * destruct (IH Hrest Hrun) as (m & Hm & H). exists m. split; auto.
        now right.
    + apply stone_eqb_neq in Hp.
      rewrite bind_state_at in Hrun.
      apply stone_eqb_neq in Hn. rewrite Hn in Hrun. cbn [negb] in Hrun.
      unfold bind at 1 in Hrun. rewrite Hh in Hrun. destruct h; cbn [negb] in Hrun.
      * destruct (IH Hrest Hrun) as (m & Hm & H). exists m. split; auto.
        now right.
      * exists n. split; [now left|]. right. split; auto.
        intros e He. destruct (Hfalse eq_refl e He) as [|[]]; auto.
Qed.

Lemma legal_move_total (v : jsval) (st : GameState) :
  exists r, legal_move v st = Some (r, st).
Proof.
  unfold legal_move.
  destruct (in_bounds v); cbn [negb]; [|now exists false].
  rewrite bind_state_at.
  destruct (stone_eqb (cell (board st) v) EMPTY); cbn [negb];
    [|now exists false].
  unfold bind at 1, get_ko at 1.
  destruct (strict_eq (ko st) v); [now exists false|].
  destruct v as [| | | |s]; try (now exists false).
  unfold bind at 1. rewrite legal_move_loop1_run.
  destruct (existsb _ _); [now exists true|].
  apply legal_move_loop2_total.
Qed.

Lemma legal_move_true (s : jstring) (st st' : GameState) :
  legal_move s st = Some (true, st') ->
  in_bounds s = true /\ cell (board st) s = EMPTY /\
  strict_eq (ko st) s = false /\
  ((exists n, In n (neighbours s) /\ cell (board st) n = EMPTY) \/
   (exists n, In n (neighbours s) /\
      ((cell (board st) n = player st /\
        exists e, liberty (board st) n e /\ e <> s) \/
       (cell (board st) n <> player st /\ cell (board st) n <> EMPTY /\
        forall e, liberty (board st) n e -> e = s)))).
Proof.
  unfold legal_move.
  destruct (in_bounds s) eqn:Hb; cbn [negb]; [|discriminate].
  rewrite bind_state_at.
  destruct (stone_eqb (cell (board st) s) EMPTY) eqn:He; cbn [negb];
    [|discriminate].
  apply stone_eqb_eq in He.
  unfold bind at 1, get_ko at 1.
  destruct (strict_eq (ko st) s) eqn:Hko; [discriminate|].
  unfold bind at 1. rewrite legal_move_loop1_run.
  destruct (existsb _ _) eqn:Hex.
  - intros _. repeat (split; [auto|]). left.
    apply existsb_exists in Hex. destruct Hex as (n & Hn & Hc).
    apply stone_eqb_eq in Hc. eauto.
  - intros Hrun. repeat (split; [auto|]). right.
    assert (Hne : forall n, In n (neighbours s) -> cell (board st) n <> EMPTY).
    { intros n Hn Hc. apply stone_eqb_eq in Hc.
      assert (existsb (fun n : jstring => stone_eqb (cell (board st) n) EMPTY)
                      (neighbours s) = true)
        by (apply existsb_exists; eauto).
      congruence. }
    destruct (@legal_move_loop2_true s (neighbours s) st st' He Hne Hrun)
      as (n & Hn & H).
    exists n. split; auto. destruct H as [H|[H1 H2]]; auto.
Qed.

(** * Taking stones off the board *)

Lemma conn_agree (b b' : Board) (s q : jstring) :
  conn b s q ->
  (forall x, conn b s x -> cell b' x = cell b x) ->
  conn b' s q.
Proof.
  induction 1 as [s|s n q Hn Hc Hq IH]; intros Hag; [constructor|].
  assert (Hsn : conn b s n) by (eapply conn_step; eauto; constructor).
  eapply conn_step; eauto.
  - rewrite (Hag n Hsn), (Hag s (conn_refl b s)). exact Hc.
  - apply IH. intros x Hx. apply Hag. eapply conn_trans; eauto.
Qed.

Lemma clear_cons (b : Board) (a : jstring) (g : list jstring) :
  clear b (a :: g) = clear (put b a EMPTY) g.
Proof. reflexivity. Qed.

Lemma wf_clear (b : Board) (g : list jstring) :
  wf_board b -> wf_board (clear b g).
Proof.
  revert b; induction g as [|a g IH]; intros b Hwf; auto.
  rewrite clear_cons. apply IH, wf_put, Hwf.
Qed.

Lemma cell_clear_out (b : Board) (g : list jstring) (x : jstring) :
  (forall q, In q g -> in_bounds q = true) ->
  ~ In x g -> cell (clear b g) x = cell b x.
Proof.
  revert b; induction g as [|a g IH]; intros b Hg Hx; auto.
  rewrite clear_cons, IH.
  - apply cell_put_other; [apply Hg; now left|].
    intros ->. apply Hx. now left.
  - intros q Hq. apply Hg. now right.
  - intros Hin. apply Hx. now right.
Qed.

Lemma cell_clear_in (b : Board) (g : list jstring) (x : jstring) :
  wf_board b -> (forall q, In q g -> in_bounds q = true) ->
  In x g -> cell (clear b g) x = EMPTY.
Proof.
  revert b; induction g as [|a g IH]; intros b Hwf Hg Hx; [destruct Hx|].
  assert (Hg' : forall q, In q g -> in_bounds q = true)
    by (intros q Hq; apply Hg; now right).
  rewrite clear_cons. destruct (in_dec jstring_eq_dec x g) as [Hin|Hout].
  - apply IH; auto using wf_put.
  - destruct Hx as [->|Hx]; [|contradiction].
    rewrite cell_clear_out by assumption.
    apply cell_put_same; auto. apply Hg. now left.
Qed.

Lemma cell_in_bounds (b : Board) (s : jstring) :
  cell b s <> EMPTY -> in_bounds s = true.
Proof.
  intros H. destruct (in_bounds s) eqn:Hb; auto.
  now rewrite cell_out_of_bounds in H.
Qed.

Lemma removal_refl (b : Board) : removal b b [].
Proof.
  constructor; auto.
  - constructor.
  - intros q. split; [intros []|]. intros [H1 H2]. contradiction.
  - intros q q' Hc Hq. apply conn_colour in Hc. congruence.
Qed.

Lemma removal_conn (b b' : Board) (L : list jstring) (m q : jstring) :
  removal b b' L -> cell b' m <> EMPTY -> conn b m q ->
  conn b' m q /\ cell b' q = cell b q.
Proof.
  intros R Hm Hq.
  assert (Hkeep : forall x, conn b m x -> cell b' x = cell b x).
  { intros x Hx. destruct (rm_frame R x) as [|He]; auto.
    exfalso. apply Hm. apply (rm_whole R (conn_sym Hx) He). }
  split; auto. eapply conn_agree; eauto.
Qed.

(** Stones that stay on the board keep the liberties they had. *)
Lemma removal_liberty (b b' : Board) (L : list jstring) (m : jstring) :
  removal b b' L -> cell b' m <> EMPTY ->
  (exists e, liberty b m e) -> exists e, liberty b' m e.
Proof.
  intros R Hm (e & q & Hq & He & Hempty).
  exists e, q. split; [eapply removal_conn; eauto|]. split; auto.
  destruct (rm_frame R e); congruence.
Qed.

Lemma removal_trans (b b' b'' : Board) (L1 L2 : list jstring) :
  removal b b' L1 -> removal b' b'' L2 -> removal b b'' (L1 ++ L2).
Proof.
  intros R1 R2.
  assert (Hstay : forall q : jstring,
            cell b' q = EMPTY -> cell b'' q = EMPTY).
  { intros q Hq. destruct (rm_frame R2 q); congruence. }
  constructor.
  - apply NoDup_app; try apply R1; try apply R2.
    intros q H1 H2. apply (rm_mem R1) in H1. apply (rm_mem R2) in H2.
    destruct H1, H2. contradiction.
  - intros q. rewrite in_app_iff, (rm_mem R1), (rm_mem R2). split.
    + intros [[H1 H2]|[H1 H2]]; split; auto.
      destruct (rm_frame R1 q); congruence.
    + intros [H1 H2].
      destruct (stone_eqb (cell b' q) EMPTY) eqn:He.
      * apply stone_eqb_eq in He. left; auto.
      * apply stone_eqb_neq in He. right; auto.
  - intros q. destruct (rm_frame R2 q) as [H2|]; auto.
    destruct (rm_frame R1 q) as [H1|H1]; [left|right]; congruence.
  - intros q q' Hc Hq.
    destruct (stone_eqb (cell b' q) EMPTY) eqn:He.
    + apply stone_eqb_eq in He. apply Hstay.
      eapply (rm_whole R1); eauto.
    + apply stone_eqb_neq in He.
      destruct (removal_conn R1 He Hc) as [Hc' _].
      eapply (rm_whole R2); eauto.
Qed.

(** Clearing the group of a stone is a removal of exactly that group. *)
Lemma removal_group (b : Board) (s : jstring) (g : list jstring) :
  wf_board b -> cell b s <> EMPTY -> NoDup g ->
  (forall q, In q g <-> conn b s q) ->
  removal b (clear b g) g.
Proof.
  intros Hwf Hs Hnd Hg.
  assert (Hcol : forall q, In q g -> cell b q <> EMPTY).
  { intros q Hq. apply Hg, conn_colour in Hq. congruence. }
  assert (Hib : forall q, In q g -> in_bounds q = true).
  { intros q Hq. eapply cell_in_bounds; eauto. }
  constructor; auto.
  - intros q. split.
    + intros Hq. split; auto. now apply cell_clear_in.
    + intros [H1 H2]. destruct (in_dec jstring_eq_dec q g); auto.
      rewrite cell_clear_out in H2 by assumption. contradiction.
  - intros q. destruct (in_dec jstring_eq_dec q g).
    + right. now apply cell_clear_in.
    + left. now apply cell_clear_out.
  - intros q q' Hc Hq.
    destruct (in_dec jstring_eq_dec q g) as [Hin|Hout].
    + apply cell_clear_in; auto. apply Hg.
      eapply conn_trans; eauto. now apply Hg.
    + rewrite cell_clear_out in Hq by assumption.
      destruct (in_dec jstring_eq_dec q' g) as [Hin'|Hout'].
      * now apply cell_clear_in.
      * rewrite cell_clear_out by assumption.
        apply conn_colour in Hc. congruence.
Qed.

Lemma destroy_cells_run (g : list jstring) (st : GameState) :
  destroy_cells g st =
  Some (tt, {| board := clear (board st) g;
               player := player st; ko := ko st |}).
Proof.
  revert st; induction g as [|a g IH]; intros st.
  - now destruct st.
  - cbn [destroy_cells]. unfold put, clear. cbn [fold_left].
    unfold put. destruct (s_to_xy a) as [x y].
    unfold bind, set_cell. rewrite IH. reflexivity.
Qed.

Lemma destroy_group_stone (s : jstring) (st : GameState) :
  wf_board (board st) -> cell (board st) s <> EMPTY ->
  exists g,
    destroy_group s st =
    Some (Z.of_nat (length g),
          {| board := clear (board st) g;
             player := player st; ko := ko st |}) /\
    removal (board st) (clear (board st) g) g /\
    (forall q, In q g <-> conn (board st) s q).
Proof.
  intros Hwf Hs.
  destruct (group_at_stone s st Hs) as (g & Hrun & Hnd & Hg).
  exists g. split; [|split; auto].
  - unfold destroy_group, bind. rewrite Hrun, destroy_cells_run.
    reflexivity.
  - eapply removal_group; eauto.
Qed.

(** * play *)

Lemma bind_run {A B} (m : M A) (k : A -> M B) (st st' : GameState) (a : A) :
  m st = Some (a, st') -> bind m k st = k a st'.
Proof. intros H. unfold bind. now rewrite H. Qed.

Arguments bind_run {A B m} k {st st' a} _.

Lemma one_liberty_singleton_loop_run (colour : stone) (ns : list jstring) :
  forall (liberties : Z) (st : GameState),
  one_liberty_singleton_loop colour ns liberties st =
  Some (forallb (fun n : jstring =>
                   negb (stone_eqb (cell (board st) n) colour)) ns &&
        (liberties +
         Z.of_nat (length (filter (fun n : jstring =>
                             stone_eqb (cell (board st) n) EMPTY) ns)) =? 1),
        st).
Proof.
  induction ns as [|n rest IH]; intros liberties st.
  - cbn. now rewrite Z.add_0_r.
  - cbn [one_liberty_singleton_loop forallb filter].
    rewrite bind_state_at.
    destruct (stone_eqb (cell (board st) n) colour); [reflexivity|].
    rewrite IH. cbn [negb andb].
    destruct (stone_eqb (cell (board st) n) EMPTY); cbn [length].
    + rewrite Nat2Z.inj_succ, <- Z.add_1_l, Z.add_assoc. reflexivity.
    + reflexivity.
Qed.

Lemma one_liberty_singleton_run (s : jstring) (st : GameState) :
  one_liberty_singleton s st = Some (lone_stone (board st) s, st).
Proof.
  unfold one_liberty_singleton, lone_stone. rewrite bind_state_at.
  destruct (stone_eqb (cell (board st) s) EMPTY); [reflexivity|].
  rewrite one_liberty_singleton_loop_run. cbn [negb andb].
  unfold empty_neighbours. cbn [Z.add].
  assert (E : forall k, (Z.of_nat k =? 1) = Nat.eqb k 1).
  { intros k. destruct (Z.eqb_spec (Z.of_nat k) 1), (Nat.eqb_spec k 1);
      auto; lia. }
  rewrite E. reflexivity.
Qed.

Lemma empty_neighbour_loop_run (ns : list jstring) (st : GameState) :
  empty_neighbour_loop ns st =
  Some (match filter (fun n : jstring =>
                        stone_eqb (cell (board st) n) EMPTY) ns with
        | [] => JNull
        | e :: _ => JStr e
        end, st).
Proof.
  induction ns as [|n rest IH]; [reflexivity|].
  cbn [empty_neighbour_loop filter]. rewrite bind_state_at.
  destruct (stone_eqb (cell (board st) n) EMPTY); auto.
Qed.

Lemma empty_neighbour_run (s : jstring) (st : GameState) :
  empty_neighbour s st =
  Some (match empty_neighbours (board st) s with
        | [] => JNull
        | e :: _ => JStr e
        end, st).
Proof. apply empty_neighbour_loop_run. Qed.

Lemma enemy_test (colour c : stone) :
  negb (stone_eqb c EMPTY) && negb (stone_eqb c colour) = true <->
  enemy colour c.
Proof.
  unfold enemy. rewrite andb_true_iff, !negb_true_iff, !stone_eqb_neq.
  tauto.
Qed.

Lemma play_loop_spec (colour : stone) (ns : list jstring) :
  forall (st : GameState) (caps : Z),
  wf_board (board st) ->
  exists b' L,
    play_loop colour ns caps st =
    Some (caps + Z.of_nat (length L),
          {| board := b'; player := player st; ko := ko st |}) /\
    wf_board b' /\
    removal (board st) b' L /\
    (forall q, In q L -> enemy colour (cell (board st) q)) /\
    (forall n, In n ns -> enemy colour (cell b' n) ->
               exists e, liberty b' n e) /\
    (L <> [] -> exists n, In n ns /\ cell b' n = EMPTY).
Proof.
  induction ns as [|n rest IH]; intros st caps Hwf.
  - exists (board st), []. cbn. rewrite Z.add_0_r. destruct st; cbn.
    split; [reflexivity|]. split; [assumption|].
    split; [apply removal_refl|]. split; [intros q []|].
    split; [intros n []|]. congruence.
  - cbn [play_loop]. rewrite bind_state_at.
    destruct (negb (stone_eqb (cell (board st) n) EMPTY) &&
              negb (stone_eqb (cell (board st) n) colour)) eqn:Htest.
    2:{ (* not an enemy stone *)
      destruct (IH st caps Hwf) as (b' & L & Hrun & Hwf' & R & Hen & Hlib & Hne).
      exists b', L. split; [exact Hrun|]. split; [exact Hwf'|].
      split; [exact R|]. split; [exact Hen|]. split.
      - intros m [<-|Hm] Hm'; [|now apply Hlib].
        exfalso. assert (Hn : ~ enemy colour (cell (board st) n)).
        { rewrite <- enemy_test. congruence. }
        destruct Hm' as [H1 H2].
        destruct (rm_frame R n) as [Heq|Heq]; [|contradiction].
        apply Hn. rewrite <- Heq. split; auto.
      - intros HL. destruct (Hne HL) as (m & Hm & Hc).
        exists m. split; auto. now right. }
    apply enemy_test in Htest.
    assert (Hnil : forall x : jstring, In x [] ->
               cell (board st) x <> cell (board st) n) by (intros x []).
    destruct (has_liberties_correct n None st (proj1 Htest) Hnil)
      as (h & Hh & Htrue & Hfalse).
    rewrite (bind_run _ Hh). destruct h; cbn [negb].
    + (* the group has a liberty and stays *)
      destruct (IH st caps Hwf) as (b' & L & Hrun & Hwf' & R & Hen & Hlib & Hne).
      exists b', L. split; [exact Hrun|]. split; [exact Hwf'|].
      split; [exact R|]. split; [exact Hen|]. split.
      * intros m [<-|Hm] Hm'; [|now apply Hlib].
        destruct (Htrue eq_refl) as (e & He & _).
        eapply removal_liberty; eauto. apply Hm'.
      * intros HL. destruct (Hne HL) as (m & Hm & Hc).
        exists m. split; auto. now right.
    + (* the group has none and is destroyed *)
      destruct (destroy_group_stone n st Hwf (proj1 Htest))
        as (g & Hd & Rg & Hg).
      rewrite (bind_run _ Hd).
      set (st1 := {| board := clear (board st) g;
                     player := player st; ko := ko st |}).
      assert (Hwf1 : wf_board (board st1)) by (apply wf_clear, Hwf).
      destruct (IH st1 (caps + Z.of_nat (length g)) Hwf1)
        as (b' & L & Hrun & Hwf' & R & Hen & Hlib & Hne).
      assert (Hn1 : cell (board st1) n = EMPTY).
      { apply (rm_mem Rg). apply Hg. constructor. }
      assert (Hn' : cell b' n = EMPTY).
      { destruct (rm_frame R n); congruence. }
      exists b', (g ++ L). split.
      { rewrite Hrun. rewrite length_app, Nat2Z.inj_add, Z.add_assoc.
        reflexivity. }
      split; [exact Hwf'|]. split; [eapply removal_trans; eauto|].
      split; [|split].
      * intros q Hq. apply in_app_or in Hq. destruct Hq as [Hq|Hq].
        -- apply Hg, conn_colour in Hq. rewrite Hq. exact Htest.
        -- specialize (Hen q Hq).
           destruct (rm_frame Rg q) as [Heq|Heq].
           ++ now rewrite <- Heq.
           ++ destruct Hen as [Hen _]. contradiction.
      * intros m [<-|Hm] Hm'; [|now apply Hlib].
        destruct Hm' as [Hm' _]. contradiction.
      * intros _. exists n. split; auto. now left.
Qed.

(** What [play] does with an in-bounds point: the stone is placed, enemy
    groups next to it that have no liberty are taken off ([L] lists their
    stones), the mover's own group is taken off if it is then without a
    liberty, and the ko point is computed on the final board. *)
Lemma play_spec (s : jstring) (st : GameState) :
  wf_state st -> in_bounds s = true ->
  exists bL L b' k,
    play s st = Some (tt, {| board := b'; player := other (player st);
                             ko := k |}) /\
    wf_board bL /\ wf_board b' /\
    removal (put (board st) s (player st)) bL L /\
    (forall q, In q L ->
               enemy (player st) (cell (put (board st) s (player st)) q)) /\
    (forall n, In n (neighbours s) -> enemy (player st) (cell bL n) ->
               exists e, liberty bL n e) /\
    (L <> [] -> exists n, In n (neighbours s) /\ cell bL n = EMPTY) /\
    (((exists e, liberty bL s e) /\ b' = bL) \/
     ((forall e, ~ liberty bL s e) /\
      exists G, removal bL b' G /\ forall q, In q G <-> conn bL s q)) /\
    k = (if (Z.of_nat (length L) =? 1) && lone_stone b' s
         then match empty_neighbours b' s with
              | [] => JNull
              | e :: _ => JStr e
              end
         else JNull).
Proof.
  intros [Hwf Hpl] Hb.
  set (colour := player st). set (b1 := put (board st) s colour).
  assert (Hcolour : colour <> EMPTY) by exact Hpl.
  set (st1 := {| board := b1; player := other colour; ko := JNull |}).
  assert (Hwf1 : wf_board (board st1)) by (apply wf_put, Hwf).
  destruct (play_loop_spec colour (neighbours s) st1 0 Hwf1)
    as (bL & L & Hloop & HwfL & R & Hen & Hlib & Hne).
  cbn [board player ko st1] in Hloop, R, Hen.
  set (stL := {| board := bL; player := other colour; ko := JNull |}).
  assert (Hs1 : cell b1 s = colour) by (apply cell_put_same; auto).
  assert (HsL : cell bL s = colour).
  { destruct (rm_frame R s) as [|He]; [congruence|].
    assert (In s L) by (apply (rm_mem R); split; congruence).
    destruct (Hen s H) as [_ Hc]. congruence. }
  assert (HsL' : cell (board stL) s <> EMPTY) by (cbn; congruence).
  assert (Hnil : forall x : jstring, In x [] ->
             cell (board stL) x <> cell (board stL) s) by (intros x []).
  destruct (has_liberties_correct s None stL HsL' Hnil)
    as (h & Hh & Htrue & Hfalse).
  assert (Hko : forall b' : Board,
    (if Z.of_nat (length L) =? 1
     then single <- one_liberty_singleton s ;;
          (if single then k <- empty_neighbour s ;; set_ko k else ret tt)
     else ret tt)
      {| board := b'; player := other colour; ko := JNull |} =
    Some (tt, {| board := b'; player := other colour;
                 ko := if (Z.of_nat (length L) =? 1) && lone_stone b' s
                       then match empty_neighbours b' s with
                            | [] => JNull
                            | e :: _ => JStr e
                            end
                       else JNull |})).
  { intros b'. destruct (Z.of_nat (length L) =? 1); [|reflexivity].
    rewrite (bind_run _ (one_liberty_singleton_run _ _)). cbn [board andb].
    destruct (lone_stone b' s); [|reflexivity].
    rewrite (bind_run _ (empty_neighbour_run _ _)). reflexivity. }
  assert (Hrun :
    play s st =
    (h <- has_liberties s None ;;
     (if negb h then destroy_group s ;;; ret tt else ret tt) ;;;
     if Z.of_nat (length L) =? 1 then
       single <- one_liberty_singleton s ;;
       (if single then k <- empty_neighbour s ;; set_ko k else ret tt)
     else ret tt) stL).
  { unfold play. rewrite Hb. cbn [negb].
    destruct (s_to_xy s) as [x y] eqn:Hxy.
    unfold bind at 1, get_player at 1.
    unfold bind at 1, set_ko at 1.
    unfold bind at 1, get_player at 1.
    unfold bind at 1, set_player at 1.
    unfold bind at 1, set_cell at 1. cbn [board player ko].
    assert (Hb1 : board_set (board st) x y (player st) = b1).
    { unfold b1, put. now rewrite Hxy. }
    rewrite Hb1. fold colour. fold (other colour). fold st1.
    rewrite (bind_run _ Hloop). fold stL. rewrite Z.add_0_l. reflexivity. }
  rewrite Hrun. clear Hrun.
  rewrite (bind_run _ Hh). destruct h; cbn [negb].
  - (* the placed stone has a liberty *)
    exists bL, L, bL. eexists. split.
    { unfold bind at 1, ret at 1. apply Hko. }
    split; [exact HwfL|]. split; [exact HwfL|]. split; [exact R|].
    split; [exact Hen|]. split; [exact Hlib|]. split; [exact Hne|].
    split; [|reflexivity].
    left. split; auto. destruct (Htrue eq_refl) as (e & He & _). eauto.
  - (* it has none: the move was suicide *)
    destruct (destroy_group_stone s stL HwfL HsL') as (G & Hd & RG & HG).
    cbn [board player ko stL] in Hd, RG, HG.
    exists bL, L, (clear bL G). eexists. split.
    { unfold bind at 1. unfold bind at 1. rewrite Hd.
      unfold ret at 1. apply Hko. }
    split; [exact HwfL|]. split; [apply wf_clear, HwfL|]. split; [exact R|].
    split; [exact Hen|]. split; [exact Hlib|]. split; [exact Hne|].
    split; [|reflexivity].
    right. split; [|exists G; auto].
    intros e He. destruct (Hfalse eq_refl e He).
Qed.

Lemma play_pass (v : jsval) (st : GameState) :
  in_bounds v = false ->
  play v st = Some (tt, {| board := board st; player := other (player st);
                           ko := JNull |}).
Proof. intros H. unfold play. rewrite H. reflexivity. Qed.

Lemma other_neq (c : stone) : other c <> c.
Proof. destruct c; discriminate. Qed.

Lemma other_not_empty (c : stone) : other c <> EMPTY.
Proof. destruct c; discriminate. Qed.

Lemma other_involutive (c : stone) : c <> EMPTY -> other (other c) = c.
Proof. destruct c; auto. contradiction. Qed.

Lemma in_bounds_string (v : jsval) :
  in_bounds v = true -> exists s : jstring, v = JStr s.
Proof. destruct v; try discriminate. eauto. Qed.

(** * The claims *)

(** C9. [state_at] answers for every input and leaves the state alone: it
    reports [EMPTY] for anything out of bounds, and for an in-bounds point
    the stone stored in [board[x][y]], a cell that exists. *)
Theorem state_at_total_permissive (st : GameState) (v : jsval) :
  wf_board (board st) ->
  exists c, state_at v st = Some (c, st) /\
    (in_bounds v = false -> c = EMPTY) /\
    (in_bounds v = true ->
     exists (s : jstring) (x y : Z) (col : list stone),
       v = JStr s /\ s_to_xy s = (x, y) /\
       nth_error (board st) (Z.to_nat x) = Some col /\
       nth_error col (Z.to_nat y) = Some c).
Proof.
  intros Hwf. exists (cell (board st) v).
  split; [reflexivity|]. split; [apply cell_out_of_bounds|].
  intros Hb. destruct (in_bounds_string _ Hb) as (s & ->).
  destruct (in_bounds_names _ Hb) as (x & y & Hn & Hxy).
  exists s, x, y, (nth (Z.to_nat x) (board st) []).
  split; [reflexivity|]. split; [exact Hxy|].
  rewrite (cell_names _ Hn). destruct Hn as (Hx & Hy & _).
  split.
  - apply nth_error_nth'. destruct Hwf as [-> _]. lia.
  - unfold board_get. apply nth_error_nth'.
    rewrite wf_board_column; auto; lia.
Qed.

Lemma state_at_total_permissive_witness :
  wf_board (board initial_state) /\
  exists c, state_at (js "dd") initial_state = Some (c, initial_state) /\
    (in_bounds (js "dd") = false -> c = EMPTY) /\
    (in_bounds (js "dd") = true ->
     exists (s : jstring) (x y : Z) (col : list stone),
       JStr (js "dd") = JStr s /\ s_to_xy s = (x, y) /\
       nth_error (board initial_state) (Z.to_nat x) = Some col /\
       nth_error col (Z.to_nat y) = Some c).
Proof.
  assert (H : wf_board (board initial_state)).
  { split; [reflexivity|]. vm_compute. repeat constructor. }
  split; [exact H|].
  exact (state_at_total_permissive initial_state (js "dd") H).
Defined.

(** C4. [legal_move] answers false for a point that is out of bounds, for an
    occupied point and for the ko point, and it answers for every input. *)
Theorem legal_move_rejects (st : GameState) (v : jsval) :
  (in_bounds v = false \/ cell (board st) v <> EMPTY \/
   strict_eq (ko st) v = true ->
   legal_move v st = Some (false, st)) /\
  exists r, legal_move v st = Some (r, st).
Proof.
  split; [|apply legal_move_total].
  unfold legal_move. intros H.
  destruct (in_bounds v); cbn [negb]; [|reflexivity].
  rewrite bind_state_at.
  destruct (stone_eqb (cell (board st) v) EMPTY) eqn:He; cbn [negb];
    [|reflexivity].
  apply stone_eqb_eq in He.
  unfold bind at 1, get_ko at 1.
  destruct (strict_eq (ko st) v); [reflexivity|].
  destruct H as [H|[H|H]]; congruence.
Qed.

Lemma legal_move_rejects_witness :
  in_bounds (js "zz") = false /\
  legal_move (js "zz") initial_state = Some (false, initial_state).
Proof.
  split; [reflexivity|].
  apply (proj1 (legal_move_rejects initial_state (js "zz"))).
  left. reflexivity.
Defined.

(** C5. [play] on an out-of-bounds point clears the ko point, hands the turn
    to the other side and leaves the board as it was; doing so twice gives
    the turn back to the side that had it, with the same board. *)
Theorem pass_twice (st : GameState) (v1 v2 : jsval) :
  player st <> EMPTY -> in_bounds v1 = false -> in_bounds v2 = false ->
  exists st1 st2,
    play v1 st = Some (tt, st1) /\
    board st1 = board st /\ ko st1 = JNull /\
    player st1 = other (player st) /\ player st1 <> player st /\
    play v2 st1 = Some (tt, st2) /\
    board st2 = board st /\ player st2 = player st.
Proof.
  intros Hp H1 H2.
  eexists. eexists. split; [apply (play_pass _ _ H1)|]. cbn [board ko player].
  split; [reflexivity|]. split; [reflexivity|]. split; [reflexivity|].
  split; [apply other_neq|].
  split; [apply (play_pass _ _ H2)|]. cbn [board player].
  split; [reflexivity|]. now apply other_involutive.
Qed.

Lemma pass_twice_witness :
  exists st1 st2,
    play JNull initial_state = Some (tt, st1) /\
    board st1 = board initial_state /\ ko st1 = JNull /\
    player st1 = other (player initial_state) /\
    player st1 <> player initial_state /\
    play (js "pass") st1 = Some (tt, st2) /\
    board st2 = board initial_state /\ player st2 = player initial_state.
Proof.
  apply (pass_twice initial_state JNull (js "pass")).
  - cbn. discriminate.
  - reflexivity.
  - reflexivity.
Defined.

(** C6. The queries return and leave the board, the player and the ko point
    exactly as they found them, whatever the input; [play] does change the
    state. *)
Theorem queries_do_not_mutate (st : GameState) :
  (forall v, exists r, legal_move v st = Some (r, st)) /\
  (forall v, exists c, state_at v st = Some (c, st)) /\
  (forall s touched, exists r, has_liberties s touched st = Some (r, st)) /\
  (forall s, exists g, group_at s st = Some (g, st)) /\
  (exists st', play JNull st = Some (tt, st') /\ st' <> st).
Proof.
  split; [intros v; apply legal_move_total|].
  split; [intros v; eexists; reflexivity|].
  split.
  { intros s t. destruct (has_liberties_run s t st) as (r & _ & H & _).
    eauto. }
  split.
  { intros s. destruct (stone_eqb (cell (board st) s) EMPTY) eqn:He.
    - apply stone_eqb_eq in He. exists []. now apply group_at_empty.
    - apply stone_eqb_neq in He.
      destruct (group_at_stone s st He) as (g & H & _). eauto. }
  eexists. split; [apply play_pass; reflexivity|].
  intros H. apply (f_equal player) in H. cbn in H.
  exact (@other_neq (player st) H).
Qed.

(** C7. [group_at] returns the empty list for a point whose cell is empty.
    For a stone it returns, each once, the points joined to it by a path of
    neighbouring stones of its colour: the seed is among them, they all have
    its colour, none of them has a neighbour of that colour outside, and
    starting from any of them gives the same set. *)
Theorem group_at_component (st : GameState) (p : jstring) :
  (cell (board st) p = EMPTY -> group_at p st = Some ([], st)) /\
  (cell (board st) p <> EMPTY ->
   exists g, group_at p st = Some (g, st) /\
     In p g /\ NoDup g /\
     (forall q, In q g -> cell (board st) q = cell (board st) p) /\
     (forall q n, In q g -> In n (neighbours q) ->
                  cell (board st) n = cell (board st) p -> In n g) /\
     (forall q, In q g <-> conn (board st) p q) /\
     (forall q, In q g ->
        exists g', group_at q st = Some (g', st) /\
                   forall r, In r g' <-> In r g)).
Proof.
  split; [apply group_at_empty|].
  intros Hp. destruct (group_at_stone p st Hp) as (g & Hrun & Hnd & Hg).
  exists g. split; [exact Hrun|].
  split; [apply Hg; constructor|]. split; [exact Hnd|].
  split; [intros q Hq; apply conn_colour; now apply Hg|].
  split.
  { intros q n Hq Hn Hc. apply Hg. apply Hg in Hq.
    eapply conn_snoc; eauto. apply conn_colour in Hq. congruence. }
  split; [exact Hg|].
  intros q Hq. apply Hg in Hq.
  assert (Hq' : cell (board st) q <> EMPTY).
  { apply conn_colour in Hq. congruence. }
  destruct (group_at_stone q st Hq') as (g' & Hrun' & _ & Hg').
  exists g'. split; [exact Hrun'|].
  intros r. rewrite Hg, Hg'. split; intros H.
  - eapply conn_trans; eauto.
  - eapply conn_trans; eauto using conn_sym.
Qed.

Lemma group_at_component_witness :
  cell (put initial_board (js "dd") BLACK) (js "dd") <> EMPTY /\
  exists g,
    group_at (js "dd")
      {| board := put initial_board (js "dd") BLACK;
         player := WHITE; ko := JNull |} =
    Some (g, {| board := put initial_board (js "dd") BLACK;
                player := WHITE; ko := JNull |}) /\
    In (js "dd") g.
Proof.
  assert (H : cell (put initial_board (js "dd") BLACK) (js "dd") <> EMPTY)
    by (vm_compute; discriminate).
  split; [exact H|].
  destruct (proj2 (group_at_component
                     {| board := put initial_board (js "dd") BLACK;
                        player := WHITE; ko := JNull |} (js "dd")) H)
    as (g & Hrun & Hin & _).
  exists g. split; [exact Hrun|exact Hin].
Defined.

Lemma has_liberties_fuel_S (fuel : nat) (s : jstring) (touched : tset) :
  has_liberties_fuel (S fuel) s touched =
  (colour <- state_at s ;;
   has_liberties_loop (has_liberties_fuel fuel) colour
                      (neighbours s) (touch s touched)).
Proof. reflexivity. Qed.

(** On an empty point the loop of [has_liberties] never recurses: it answers
    whether some neighbour is empty. *)
Lemma has_liberties_loop_empty (rec : jstring -> tset -> M (bool * tset))
      (st : GameState) (ns : list jstring) (tk : tset) :
  (forall n, In n ns -> ~ In n tk) ->
  exists t',
    has_liberties_loop rec EMPTY ns tk st =
    Some ((existsb (fun n : jstring => stone_eqb (cell (board st) n) EMPTY) ns,
           t'), st).
Proof.
  induction ns as [|n rest IH]; intros Hns; [now exists tk|].
  cbn [has_liberties_loop existsb].
  assert (Hn : touched_has tk n = false).
  { apply touched_has_not_In, Hns. now left. }
  rewrite Hn, bind_state_at.
  destruct (stone_eqb (cell (board st) n) EMPTY); [now exists tk|].
  apply IH. intros m Hm. apply Hns. now right.
Qed.

Lemma has_liberties_empty_point (st : GameState) (s : jstring) :
  cell (board st) s = EMPTY ->
  has_liberties s (Some []) st =
  Some (existsb (fun n : jstring => stone_eqb (cell (board st) n) EMPTY)
                (neighbours s), st) /\
  Sibling.has_liberties s st = Some (false, st).
Proof.
  intros Hs. split.
  - destruct (has_liberties_loop_empty (has_liberties_fuel 361) st
                (neighbours s) [s]) as (t' & Hrun).
    { intros n Hn [<-|[]]. exact (@neighbours_irrefl s Hn). }
    assert (H : has_liberties_fuel FUEL s [] st =
                Some ((existsb (fun n : jstring =>
                                  stone_eqb (cell (board st) n) EMPTY)
                               (neighbours s), t'), st)).
    { change FUEL with (S 361).
      rewrite has_liberties_fuel_S, bind_state_at, Hs, touch_nil.
      exact Hrun. }
    unfold has_liberties. rewrite (bind_run _ H). reflexivity.
  - unfold Sibling.has_liberties. rewrite bind_state_at, Hs. reflexivity.
Qed.

(** On the starting board the corner point "aa" is empty and so are its
    neighbours: [has_liberties] called there with an empty [touched] answers
    true, not false. *)
Lemma has_liberties_empty_corner :
  cell (board initial_state) (js "aa") = EMPTY /\
  has_liberties (js "aa") (Some []) initial_state =
    Some (true, initial_state) /\
  has_liberties (js "aa") (Some []) initial_state <>
    Some (false, initial_state).
Proof.
  split; [reflexivity|].
  destruct (has_liberties_empty_point initial_state (js "aa") eq_refl)
    as [H1 _].
  rewrite H1. split; [reflexivity|].
  vm_compute. discriminate.
Qed.

(** C8. Called on an empty point with an empty [touched], [has_liberties]
    returns and leaves the state alone; it answers false exactly when no
    neighbour of the point is empty, so on every point out of bounds, and
    true when some neighbour is empty. The one-argument [has_liberties] of
    the sibling script, which tests the point first, answers false on every
    empty point. *)
Theorem has_liberties_on_empty_point (st : GameState) (p : jstring) :
  cell (board st) p = EMPTY ->
  exists r,
    has_liberties p (Some []) st = Some (r, st) /\
    (r = false <->
     forall n, In n (neighbours p) -> cell (board st) n <> EMPTY) /\
    (in_bounds p = false -> r = false) /\
    Sibling.has_liberties p st = Some (false, st).
Proof.
  intros Hp. destruct (has_liberties_empty_point st p Hp) as [H1 H2].
  eexists. split; [exact H1|]. split; [|split; [|exact H2]].
  - split.
    + intros Hr n Hn Hc.
      assert (Hex : existsb (fun n : jstring =>
                               stone_eqb (cell (board st) n) EMPTY)
                            (neighbours p) = true).
      { apply existsb_exists. exists n. split; [exact Hn|].
        now apply stone_eqb_eq. }
      congruence.
    + intros Hall.
      destruct (existsb _ _) eqn:Hex; [|reflexivity].
      apply existsb_exists in Hex. destruct Hex as (n & Hn & Hc).
      apply stone_eqb_eq in Hc. exfalso. exact (Hall n Hn Hc).
  - intros Hb. unfold neighbours. rewrite Hb. reflexivity.
Qed.

Lemma has_liberties_on_empty_point_witness :
  cell (board corner_position) (js "aa") = EMPTY /\
  exists r,
    has_liberties (js "aa") (Some []) corner_position =
      Some (r, corner_position) /\
    (r = false <->
     forall n, In n (neighbours (js "aa")) ->
               cell (board corner_position) n <> EMPTY).
Proof.
  assert (H : cell (board corner_position) (js "aa") = EMPTY)
    by reflexivity.
  split; [exact H|].
  destruct (@has_liberties_on_empty_point corner_position (js "aa") H)
    as (r & Hrun & Hiff & _).
  exists r. split; [exact Hrun|exact Hiff].
Defined.

(** * Reachable states *)

Lemma legal_move_in_bounds (v : jsval) (st st' : GameState) :
  legal_move v st = Some (true, st') -> in_bounds v = true.
Proof.
  unfold legal_move. destruct (in_bounds v); auto. discriminate.
Qed.

Lemma reachable_wf (st : GameState) : reachable st -> wf_state st.
Proof.
  induction 1 as [|st st' v Hr IH Hl Hp|st st' v Hr IH Hb Hp].
  - split; [apply wf_initial_board|discriminate].
  - pose proof (legal_move_in_bounds _ _ Hl) as Hb.
    destruct (in_bounds_string _ Hb) as (s & ->).
    destruct (@play_spec s st IH Hb) as (bL & L & b' & k & Hrun & _ & Hwf & _).
    rewrite Hrun in Hp. inversion Hp; subst.
    split; [exact Hwf|apply other_not_empty].
  - rewrite (play_pass _ _ Hb) in Hp. inversion Hp; subst.
    split; [apply IH|apply other_not_empty].
Qed.

Lemma run_game_reachable (moves : list jsval) :
  forall st st', reachable st -> run_game moves st = Some st' ->
                 reachable st'.
Proof.
  induction moves as [|v rest IH]; intros st st' Hr Hrun.
  - inversion Hrun; subst. exact Hr.
  - cbn [run_game] in Hrun.
    destruct (legal_move_total v st) as (ok & Hl). rewrite Hl in Hrun.
    destruct (ok || negb (in_bounds v)) eqn:Hok; [|discriminate].
    destruct (play v st) as [[[] st1]|] eqn:Hp; [|discriminate].
    apply (IH st1); auto.
    destruct ok.
    + eapply reach_move; eauto.
    + eapply reach_pass; eauto. cbn in Hok.
      now destruct (in_bounds v).
Qed.

(** C10. In every state a game can reach, the ko point is [null] or names
    an in-bounds point whose cell is empty. *)
Theorem ko_point_invariant (st : GameState) :
  reachable st ->
  ko st = JNull \/
  exists s : jstring,
    ko st = JStr s /\ in_bounds s = true /\ cell (board st) s = EMPTY.
Proof.
  induction 1 as [|st st' v Hr IH Hl Hp|st st' v Hr IH Hb Hp].
  - now left.
  - pose proof (legal_move_in_bounds _ _ Hl) as Hb.
    destruct (in_bounds_string _ Hb) as (s & ->).
    destruct (@play_spec s st (reachable_wf Hr) Hb)
      as (bL & L & b' & k & Hrun & _ & _ & _ & _ & _ & _ & _ & Hk).
    rewrite Hrun in Hp. inversion Hp; subst st'. cbn [ko board].
    destruct ((Z.of_nat (length L) =? 1) && lone_stone b' s);
      [|now left].
    destruct (empty_neighbours b' s) as [|e rest] eqn:He; [now left|].
    right. exists e. split; [exact Hk|].
    assert (Hin : In e (empty_neighbours b' s)) by (rewrite He; now left).
    apply filter_In in Hin. destruct Hin as [Hn Hc].
    split; [eapply neighbours_in_bounds; eauto|now apply stone_eqb_eq].
  - rewrite (play_pass _ _ Hb) in Hp. inversion Hp; subst. now left.
Qed.

Lemma ko_position_reachable : reachable ko_position.
Proof.
  apply run_game_reachable with (moves := ko_moves) (st := initial_state).
  - apply reach_init.
  - vm_compute. reflexivity.
Qed.

Lemma ko_point_invariant_witness :
  reachable ko_position /\
  (ko ko_position = JNull \/
   exists s : jstring,
     ko ko_position = JStr s /\ in_bounds s = true /\
     cell (board ko_position) s = EMPTY).
Proof.
  assert (H : reachable ko_position).
  { apply run_game_reachable with (moves := ko_moves) (st := initial_state).
    - apply reach_init.
    - vm_compute. reflexivity. }
  split; [exact H|exact (ko_point_invariant H)].
Defined.

(** The ko round trip: after the capture the ko point is "bb", White may not
    retake there at once, and may after an exchange of passes. *)
Example ko_round_trip :
  ko ko_position = JStr (js "bb") /\
  player ko_position = WHITE /\
  legal_move (js "bb") ko_position = Some (false, ko_position) /\
  exists st1 st2,
    play JNull ko_position = Some (tt, st1) /\
    play JNull st1 = Some (tt, st2) /\
    legal_move (js "bb") st2 = Some (true, st2).
Proof.
  split; [reflexivity|]. split; [reflexivity|].
  split; [vm_compute; reflexivity|].
  eexists. eexists.
  split; [apply play_pass; reflexivity|].
  split; [apply play_pass; reflexivity|].
  vm_compute. reflexivity.
Qed.

(** * Suicide *)

Lemma cell_put (b : Board) (p q : jstring) (c : stone) :
  wf_board b -> in_bounds p = true ->
  cell (put b p c) q = if jstring_eq_dec q p then c else cell b q.
Proof.
  intros Hwf Hb. destruct (jstring_eq_dec q p) as [->|Hne].
  - now apply cell_put_same.
  - now apply cell_put_other.
Qed.

(** C1. A move that would leave the new stone's group without a liberty
    and every neighbouring enemy group with one is refused. *)
Theorem suicide_is_illegal (st : GameState) (p : jstring) :
  wf_state st ->
  no_liberty (put (board st) p (player st)) p ->
  captures_nothing (put (board st) p (player st)) p (player st) ->
  legal_move p st = Some (false, st).
Proof.
  intros [Hwf Hpl] Hnl Hcap.
  destruct (legal_move_total p st) as ([|] & Hrun); [exfalso|exact Hrun].
  destruct (legal_move_true _ _ Hrun) as (Hb & Hp & _ & Hcases).
  set (b := board st) in *. set (c := player st) in *.
  set (b1 := put b p c) in *.
  assert (Hp1 : cell b1 p = c) by (apply cell_put_same; auto).
  assert (Hoth : forall q : jstring, q <> p -> cell b1 q = cell b q).
  { intros q Hq. now apply cell_put_other. }
  assert (Hstone : forall q : jstring, cell b q <> EMPTY -> q <> p).
  { intros q Hq ->. contradiction. }
  destruct Hcases as [(n & Hn & Hne)|(n & Hn & [(Hc & e & Hlib & Hep)|
                                               (Hc & Hne & Hlib)])].
  - (* an empty neighbour stays empty *)
    apply (Hnl n). exists p. split; [constructor|]. split; auto.
    rewrite Hoth; auto. intros ->. exact (@neighbours_irrefl p Hn).
  - (* a friendly group lends its liberty *)
    destruct Hlib as (q & Hq & He & Hempty).
    assert (Hnc : cell b n <> EMPTY) by (fold c in Hc; congruence).
    apply (Hnl e). exists q. split; [|split; auto].
    + eapply conn_step; eauto.
      * rewrite Hp1, Hoth; auto.
      * eapply conn_agree; eauto. intros x Hx. apply Hoth, Hstone.
        apply conn_colour in Hx. congruence.
    + rewrite Hoth; auto.
  - (* an enemy group whose last liberty is p would be captured *)
    assert (Hn1 : cell b1 n = cell b n) by (apply Hoth, Hstone, Hne).
    assert (Hen : enemy c (cell b1 n)).
    { rewrite Hn1. split; auto. }
    destruct (Hcap n Hn Hen) as (e & q & Hq & He & Hempty).
    assert (Hstone1 : forall x : jstring, cell b1 x <> c -> x <> p).
    { intros x Hx ->. contradiction. }
    assert (Hep : e <> p).
    { apply Hstone1. rewrite Hempty. auto. }
    apply Hep, Hlib. exists q. split; [|split; auto].
    + eapply conn_agree; eauto. intros x Hx. symmetry. apply Hoth, Hstone1.
      apply conn_colour in Hx. rewrite Hx. apply Hen.
    + rewrite <- Hoth; auto.
Qed.

Lemma no_liberty_by_search (st : GameState) (s : jstring) :
  cell (board st) s <> EMPTY ->
  has_liberties s None st = Some (false, st) ->
  no_liberty (board st) s.
Proof.
  intros Hs Hrun e He.
  assert (Hnil : forall x : jstring, In x [] ->
             cell (board st) x <> cell (board st) s) by (intros x []).
  destruct (has_liberties_correct s None st Hs Hnil)
    as (h & Hh & _ & Hfalse).
  rewrite Hrun in Hh. inversion Hh; subst.
  exact (Hfalse eq_refl e He).
Qed.

Lemma liberty_by_search (st : GameState) (s : jstring) :
  cell (board st) s <> EMPTY ->
  has_liberties s None st = Some (true, st) ->
  exists e, liberty (board st) s e.
Proof.
  intros Hs Hrun.
  assert (Hnil : forall x : jstring, In x [] ->
             cell (board st) x <> cell (board st) s) by (intros x []).
  destruct (has_liberties_correct s None st Hs Hnil)
    as (h & Hh & Htrue & _).
  rewrite Hrun in Hh. inversion Hh; subst.
  destruct (Htrue eq_refl) as (e & He & _). eauto.
Qed.

Lemma wf_corner_position : wf_state corner_position.
Proof.
  split; [|discriminate].
  split; [reflexivity|]. vm_compute. repeat constructor.
Qed.

Lemma suicide_is_illegal_witness :
  wf_state corner_position /\
  no_liberty (put (board corner_position) (js "aa") BLACK) (js "aa") /\
  captures_nothing (put (board corner_position) (js "aa") BLACK)
                   (js "aa") BLACK /\
  legal_move (js "aa") corner_position = Some (false, corner_position).
Proof.
  pose (st1 := {| board := put (board corner_position) (js "aa") BLACK;
                  player := WHITE; ko := JNull |}).
  assert (H1 : wf_state corner_position).
  { split; [|discriminate].
    split; [reflexivity|]. vm_compute. repeat constructor. }
  assert (H2 : no_liberty (put (board corner_position) (js "aa") BLACK)
                          (js "aa")).
  { apply (@no_liberty_by_search st1 (js "aa")).
    - vm_compute. discriminate.
    - vm_compute. reflexivity. }
  assert (H3 : captures_nothing (put (board corner_position) (js "aa") BLACK)
                                (js "aa") BLACK).
  { intros n Hn _. vm_compute in Hn.
    destruct Hn as [<-|[<-|[]]];
      apply (@liberty_by_search st1); vm_compute;
        first [discriminate|reflexivity]. }
  split; [exact H1|]. split; [exact H2|]. split; [exact H3|].
  exact (suicide_is_illegal H1 H2 H3).
Defined.

(** * Capture *)

Lemma liberty_conn (b : Board) (m q e : jstring) :
  conn b m q -> liberty b q e -> liberty b m e.
Proof.
  intros Hq (r & Hr & He). exists r. split; auto.
  eapply conn_trans; eauto.
Qed.

(** C2. After a legal move on an empty point, every enemy group next to the
    point has a liberty; and if no group was without a liberty before the
    move, no enemy group anywhere on the board is without one after it. *)
Theorem capture_leaves_no_dead_neighbour (st : GameState) (p : jstring) :
  wf_state st -> in_bounds p = true -> cell (board st) p = EMPTY ->
  legal_move p st = Some (true, st) ->
  exists st',
    play p st = Some (tt, st') /\
    (forall n, In n (neighbours p) ->
               enemy (player st) (cell (board st') n) ->
               exists e, liberty (board st') n e) /\
    ((forall m : jstring, cell (board st) m <> EMPTY ->
                          exists e, liberty (board st) m e) ->
     forall m : jstring, enemy (player st) (cell (board st') m) ->
                         exists e, liberty (board st') m e).
Proof.
  intros Hwfst Hb Hp _. pose proof Hwfst as [Hwf Hpl].
  destruct (@play_spec p st Hwfst Hb)
    as (bL & L & b' & k & Hrun & HwfL & Hwf' & R & Hen & Hlib & _ & Hown & _).
  eexists. split; [exact Hrun|]. cbn [board].
  set (c := player st) in *. set (b := board st) in *.
  set (b1 := put b p c) in *.
  (* what holds on bL carries over to b' *)
  assert (Hlast : forall m : jstring, cell b' m <> EMPTY ->
            cell bL m = cell b' m /\
            ((exists e, liberty bL m e) -> exists e, liberty b' m e)).
  { intros m Hm. destruct Hown as [[_ ->]|(_ & G & RG & _)]; [auto|].
    split.
    - destruct (rm_frame RG m); congruence.
    - eapply removal_liberty; eauto. }
  split.
  - intros n Hn Hen'. destruct (Hlast n (proj1 Hen')) as [Heq Hl].
    apply Hl, Hlib; auto. now rewrite Heq.
  - intros Hinv m Hm. destruct (Hlast m (proj1 Hm)) as [Heq Hl].
    apply Hl. clear Hl.
    assert (HmL : cell bL m <> EMPTY) by (rewrite Heq; apply Hm).
    assert (Hm1 : cell b1 m = cell bL m).
    { destruct (rm_frame R m); congruence. }
    assert (Hp1 : cell b1 p = c) by (apply cell_put_same; auto).
    assert (Hmp : forall x : jstring, cell b1 x <> c -> cell b x = cell b1 x).
    { intros x Hx. symmetry. apply cell_put_other; auto.
      intros ->. contradiction. }
    assert (Hmc : cell b1 m <> c) by (rewrite Hm1, Heq; apply Hm).
    assert (Hmb : cell b m <> EMPTY) by (rewrite Hmp; congruence).
    destruct (Hinv m Hmb) as (e & q & Hq & He & Hempty).
    assert (Hq1 : conn b1 m q).
    { eapply conn_agree; eauto. intros x Hx.
      destruct (jstring_eq_dec x p) as [->|Hne].
      - apply conn_colour in Hx. congruence.
      - now apply cell_put_other. }
    destruct (removal_conn R HmL Hq1) as [HqL HqLc].
    destruct (jstring_eq_dec e p) as [->|Hne].
    + (* the old liberty was p: the group is next to p *)
      assert (Hqn : In q (neighbours p)) by now apply neighbours_sym.
      assert (HqE : enemy c (cell bL q)).
      { rewrite (conn_colour HqL), Heq. exact Hm. }
      destruct (Hlib q Hqn HqE) as (e' & He').
      exists e'. eapply liberty_conn; eauto.
    + (* the old liberty is still there *)
      eapply removal_liberty; eauto.
      exists e, q. split; [exact Hq1|]. split; [exact He|].
      transitivity (cell b e); [now apply cell_put_other|exact Hempty].
Qed.

Lemma capture_leaves_no_dead_neighbour_witness :
  wf_state ko_setup /\ in_bounds (js "cb") = true /\
  cell (board ko_setup) (js "cb") = EMPTY /\
  legal_move (js "cb") ko_setup = Some (true, ko_setup) /\
  exists st',
    play (js "cb") ko_setup = Some (tt, st') /\
    (forall n, In n (neighbours (js "cb")) ->
               enemy (player ko_setup) (cell (board st') n) ->
               exists e, liberty (board st') n e).
Proof.
  assert (H1 : wf_state ko_setup).
  { split; [|discriminate].
    split; [reflexivity|]. vm_compute. repeat constructor. }
  assert (H2 : legal_move (js "cb") ko_setup = Some (true, ko_setup))
    by (vm_compute; reflexivity).
  split; [exact H1|]. split; [reflexivity|]. split; [reflexivity|].
  split; [exact H2|].
  destruct (@capture_leaves_no_dead_neighbour ko_setup (js "cb")
              H1 eq_refl eq_refl H2) as (st' & Hrun & Hadj & _).
  exists st'. split; [exact Hrun|exact Hadj].
Defined.

(** * Ko *)

Lemma In_captured_stones (colour : stone) (b1 b' : Board) (q : jstring) :
  In q (captured_stones colour b1 b') <->
  in_bounds q = true /\ enemy colour (cell b1 q) /\ cell b' q = EMPTY.
Proof.
  unfold captured_stones. rewrite filter_In, In_all_points.
  rewrite !andb_true_iff, !negb_true_iff, !stone_eqb_neq, stone_eqb_eq.
  unfold enemy. tauto.
Qed.

Lemma lone_stone_true (b : Board) (s : jstring) :
  lone_stone b s = true <->
  cell b s <> EMPTY /\
  (forall n, In n (neighbours s) -> cell b n <> cell b s) /\
  length (empty_neighbours b s) = 1%nat.
Proof.
  unfold lone_stone.
  rewrite !andb_true_iff, negb_true_iff, stone_eqb_neq, forallb_forall,
    Nat.eqb_eq.
  split.
  - intros [[H1 H2] H3]. split; [exact H1|]. split; [|exact H3].
    intros n Hn. apply stone_eqb_neq, negb_true_iff. auto.
  - intros (H1 & H2 & H3). split; [split; [exact H1|]|exact H3].
    intros n Hn. apply negb_true_iff, stone_eqb_neq. auto.
Qed.

Lemma NoDup_all_equal {A} (l : list A) (e : A) :
  NoDup l -> In e l -> (forall x, In x l -> x = e) -> l = [e].
Proof.
  intros Hnd He Hall. destruct l as [|a [|b l]]; [destruct He| |].
  - now rewrite (Hall a (or_introl eq_refl)).
  - exfalso. inversion Hnd as [|? ? Hna _]; subst. apply Hna. left.
    rewrite (Hall a), (Hall b); cbn; auto.
Qed.

Lemma only_empty_neighbour_list (b : Board) (p e : jstring) :
  only_empty_neighbour b p e <-> empty_neighbours b p = [e].
Proof.
  unfold only_empty_neighbour, empty_neighbours. split.
  - intros (Hin & He & Huniq). apply NoDup_all_equal.
    + apply NoDup_filter, NoDup_neighbours.
    + apply filter_In. split; auto. now apply stone_eqb_eq.
    + intros x Hx. apply filter_In in Hx. destruct Hx as [Hx Hc].
      apply Huniq; auto. now apply stone_eqb_eq.
  - intros Hl.
    assert (Hmem : forall x : jstring,
              In x (neighbours p) /\ cell b x = EMPTY <-> x = e).
    { intros x. rewrite <- stone_eqb_eq.
      rewrite <- (filter_In (fun n : jstring => stone_eqb (cell b n) EMPTY)).
      rewrite Hl. cbn. intuition. }
    destruct (proj2 (Hmem e) eq_refl) as [H1 H2].
    split; [exact H1|]. split; [exact H2|].
    intros e' H1' H2'. apply Hmem. auto.
Qed.

(** C3. After [play] on an in-bounds point the ko point is the one empty
    neighbour of the point when exactly one enemy stone was captured and the
    stone just played has no neighbour of its colour and exactly one empty
    neighbour; in every other case it is [null]. *)
Theorem ko_detection (st : GameState) (p : jstring) :
  wf_state st -> in_bounds p = true ->
  exists st',
    play p st = Some (tt, st') /\
    (ko_shape (player st) (put (board st) p (player st)) (board st') p ->
     exists e, only_empty_neighbour (board st') p e /\ ko st' = JStr e) /\
    (~ ko_shape (player st) (put (board st) p (player st)) (board st') p ->
     ko st' = JNull).
Proof.
  intros Hwfst Hb. pose proof Hwfst as [Hwf Hpl].
  destruct (@play_spec p st Hwfst Hb)
    as (bL & L & b' & k & Hrun & HwfL & Hwf' & R & Hen & _ & Hne & Hown & Hk).
  eexists. split; [exact Hrun|]. cbn [board ko].
  set (c := player st) in *. set (b1 := put (board st) p c) in *.
  assert (Hp1 : cell b1 p = c) by (apply cell_put_same; auto).
  assert (HpL : cell bL p = c).
  { destruct (rm_frame R p) as [|He]; [congruence|].
    assert (Hin : In p L) by (apply (rm_mem R); split; congruence).
    destruct (Hen p Hin) as [_ Hc]. congruence. }
  (* the counter of [play] counts the captured stones *)
  assert (Hcount : length (captured_stones c b1 b') = length L).
  { apply Permutation_length, NoDup_Permutation.
    - apply NoDup_filter, NoDup_all_points.
    - apply R.
    - intros q. rewrite In_captured_stones, (rm_mem R). split.
      + intros (_ & Hq & Hq'). split; [apply Hq|].
        destruct Hown as [[_ ->]|(_ & G & RG & HG)]; auto.
        destruct (stone_eqb (cell bL q) EMPTY) eqn:HqL;
          [now apply stone_eqb_eq|].
        apply stone_eqb_neq in HqL. exfalso.
        assert (HqG : In q G) by (apply (rm_mem RG); auto).
        apply HG, conn_colour in HqG.
        destruct (rm_frame R q) as [Heq|]; [|contradiction].
        destruct Hq as [_ Hq]. congruence.
      + intros [Hq Hq']. assert (HqL : In q L) by (apply (rm_mem R); auto).
        split; [eapply cell_in_bounds; eauto|]. split; [now apply Hen|].
        destruct Hown as [[_ ->]|(_ & G & RG & _)]; auto.
        destruct (rm_frame RG q); congruence. }
  (* a capture leaves the new stone a liberty, so it stays *)
  assert (Hstay : L <> [] -> b' = bL).
  { intros HL. destruct Hown as [[_ ->]|[Hno _]]; auto.
    destruct (Hne HL) as (n & Hn & Hc). exfalso.
    apply (Hno n). exists p. split; [constructor|]. auto. }
  assert (Hone : forall n : nat, (Z.of_nat n =? 1) = true <-> n = 1%nat).
  { intros n. rewrite Z.eqb_eq. lia. }
  split.
  - intros (Hcap & Halone & e & He). exists e. split; [exact He|].
    apply only_empty_neighbour_list in He.
    rewrite Hcount in Hcap.
    assert (HL : L <> []) by (intros ->; discriminate).
    assert (Hlone : lone_stone b' p = true).
    { apply lone_stone_true. rewrite (Hstay HL), HpL in *.
      split; [exact Hpl|]. split; [exact Halone|]. now rewrite He. }
    apply Hone in Hcap. rewrite Hk, Hcap, Hlone, He. reflexivity.
  - intros Hnot. rewrite Hk.
    destruct (Z.of_nat (length L) =? 1) eqn:Hcap; [|reflexivity].
    destruct (lone_stone b' p) eqn:Hlone; [|reflexivity].
    exfalso. apply Hnot.
    apply Hone in Hcap. apply lone_stone_true in Hlone.
    assert (HL : L <> []) by (intros ->; discriminate).
    rewrite (Hstay HL), HpL in *.
    destruct Hlone as (_ & Halone & Hlen).
    split; [congruence|]. split; [exact Halone|].
    destruct (empty_neighbours bL p) as [|e [|e' rest]] eqn:He;
      try discriminate.
    exists e. now apply only_empty_neighbour_list.
Qed.

Lemma ko_detection_witness :
  wf_state ko_setup /\ in_bounds (js "cb") = true /\
  exists st',
    play (js "cb") ko_setup = Some (tt, st') /\
    (ko_shape (player ko_setup)
              (put (board ko_setup) (js "cb") (player ko_setup))
              (board st') (js "cb") ->
     exists e, only_empty_neighbour (board st') (js "cb") e /\
               ko st' = JStr e) /\
    (~ ko_shape (player ko_setup)
                (put (board ko_setup) (js "cb") (player ko_setup))
                (board st') (js "cb") ->
     ko st' = JNull).
Proof.
  assert (H1 : wf_state ko_setup).
  { split; [|discriminate].
    split; [reflexivity|]. vm_compute. repeat constructor. }
  split; [exact H1|]. split; [reflexivity|].
  exact (@ko_detection ko_setup (js "cb") H1 eq_refl).
Defined.

(** In the ko position the shape is there and the ko point is "bb". *)
Example capture_makes_ko :
  play (js "cb") ko_setup = Some (tt, ko_position) /\
  ko_shape (player ko_setup)
           (put (board ko_setup) (js "cb") (player ko_setup))
           (board ko_position) (js "cb") /\
  ko ko_position = JStr (js "bb").
Proof.
  split; [vm_compute; reflexivity|]. split; [|reflexivity].
  split; [vm_compute; reflexivity|]. split.
  - intros n Hn. vm_compute in Hn.
    destruct Hn as [<-|[<-|[<-|[<-|[]]]]]; vm_compute; discriminate.
  - exists (js "bb"). apply only_empty_neighbour_list.
    vm_compute. reflexivity.
Qed.

(** * Further properties of the code *)

(** ** Coordinates *)

(** X1. Names and coordinates convert back and forth: a pair inside the
    board gives an in-bounds name that reads back as the pair, and an
    in-bounds name is rebuilt from the pair it reads as. *)
Theorem coordinates_round_trip (x y : Z) (s : jstring) :
  (0 <= x < 19 -> 0 <= y < 19 ->
   in_bounds (xy_to_s x y) = true /\ s_to_xy (xy_to_s x y) = (x, y)) /\
  (in_bounds s = true ->
   0 <= fst (s_to_xy s) < 19 /\ 0 <= snd (s_to_xy s) < 19 /\
   xy_to_s (fst (s_to_xy s)) (snd (s_to_xy s)) = s).
Proof.
  split.
  - intros Hx Hy. split.
    + now apply in_bounds_xy_to_s.
    + now apply s_to_xy_xy_to_s.
  - intros Hs. destruct (in_bounds_names _ Hs) as (a & b & Hn & Hxy).
    rewrite Hxy. cbn [fst snd]. destruct Hn as (Ha & Hb & ->). auto.
Qed.

Lemma coordinates_round_trip_witness :
  (0 <= 3 < 19 /\ 0 <= 15 < 19 /\ in_bounds (js "dp") = true) /\
  s_to_xy (xy_to_s 3 15) = (3, 15) /\
  xy_to_s (fst (s_to_xy (js "dp"))) (snd (s_to_xy (js "dp"))) = js "dp".
Proof.
  assert (H1 : 0 <= 3 < 19) by lia.
  assert (H2 : 0 <= 15 < 19) by lia.
  assert (H3 : in_bounds (js "dp") = true) by reflexivity.
  split; [auto|]. split.
  - exact (proj2 (proj1 (coordinates_round_trip 3 15 (js "dp")) H1 H2)).
  - exact (proj2 (proj2
             (proj2 (coordinates_round_trip 3 15 (js "dp")) H3))).
Defined.

(** X2. [in_bounds] accepts exactly the strings of two code units that are
    both letters from "a" (97) to "s" (115); nothing else, and no value that
    is not a string. *)
Theorem in_bounds_letters (v : jsval) :
  in_bounds v = true <->
  exists a b : N, v = JStr [a; b] /\
                  (97 <= a <= 115)%N /\ (97 <= b <= 115)%N.
Proof.
  split.
  - destruct v as [| | | |s]; try discriminate.
    destruct s as [|a [|b [|c s]]]; try discriminate.
    unfold in_bounds, s_to_xy, charCodeAt; cbn [length Nat.eqb negb nth].
    intros H. repeat (apply andb_prop in H; destruct H as [H ?]).
    exists a, b. split; [reflexivity|]. lia.
  - intros (a & b & -> & Ha & Hb).
    unfold in_bounds, s_to_xy, charCodeAt; cbn [length Nat.eqb negb nth].
    repeat (apply andb_true_intro; split); lia.
Qed.

(** X3. The neighbours of a point are exactly the in-bounds points one step
    away along one axis; being a neighbour is symmetric, no point is its own
    neighbour, and a point out of bounds has none. *)
Theorem neighbours_adjacent (s n : jstring) :
  (In n (neighbours s) <->
   in_bounds s = true /\ in_bounds n = true /\
   Z.abs (fst (s_to_xy s) - fst (s_to_xy n)) +
   Z.abs (snd (s_to_xy s) - snd (s_to_xy n)) = 1) /\
  (In n (neighbours s) -> In s (neighbours n)) /\
  ~ In s (neighbours s) /\
  (in_bounds s = false -> neighbours s = []).
Proof.
  split; [|split; [apply neighbours_sym|split; [apply neighbours_irrefl|]]].
  - rewrite neighbours_spec. split.
    + intros (x & y & x' & y' & Hs & Hn & Hd).
      destruct (names_in_bounds Hs) as [Hbs ->].
      destruct (names_in_bounds Hn) as [Hbn ->]. auto.
    + intros (Hs & Hn & Hd).
      destruct (in_bounds_names _ Hs) as (x & y & Hns & Hxy).
      destruct (in_bounds_names _ Hn) as (x' & y' & Hnn & Hxy').
      rewrite Hxy, Hxy' in Hd. exists x, y, x', y'. auto.
  - intros H. unfold neighbours. now rewrite H.
Qed.

(** X4. [neighbours] lists no point twice, and an in-bounds point has four
    neighbours less one for each axis on which it lies on the edge: two in
    a corner, three on a side, four inside. *)
Theorem neighbours_count (s : jstring) :
  NoDup (neighbours s) /\
  (in_bounds s = true ->
   Z.of_nat (length (neighbours s)) =
   4 - (if (fst (s_to_xy s) =? 0) || (fst (s_to_xy s) =? 18) then 1 else 0)
     - (if (snd (s_to_xy s) =? 0) || (snd (s_to_xy s) =? 18) then 1 else 0)).
Proof.
  split; [apply NoDup_neighbours|].
  intros Hs. unfold neighbours. rewrite Hs. cbn [negb].
  destruct (in_bounds_names _ Hs) as (x & y & (Hx & Hy & _) & ->).
  cbn [fst snd].
  destruct (Z.ltb_spec x (19 - 1)), (Z.gtb_spec x 0),
    (Z.ltb_spec y (19 - 1)), (Z.gtb_spec y 0);
    destruct (Z.eqb_spec x 0), (Z.eqb_spec x 18),
      (Z.eqb_spec y 0), (Z.eqb_spec y 18); cbn; lia.
Qed.

Lemma neighbours_count_witness :
  in_bounds (js "as") = true /\
  Z.of_nat (length (neighbours (js "as"))) = 2.
Proof.
  split; [reflexivity|].
  exact (proj2 (neighbours_count (js "as")) eq_refl).
Defined.

(** ** The searches *)

(** X5. Called on a stone, with [touched] holding no stone of its colour,
    [has_liberties] returns, leaves the state alone, and answers true
    exactly when the group of the stone has a liberty that is not in
    [touched]. *)
Theorem has_liberties_decides (st : GameState) (s : jstring)
        (touched : option tset) :
  cell (board st) s <> EMPTY ->
  (forall x : jstring,
     In x (match touched with None => [] | Some t => t end) ->
     cell (board st) x <> cell (board st) s) ->
  exists r,
    has_liberties s touched st = Some (r, st) /\
    (r = true <->
     exists e, liberty (board st) s e /\
               ~ In e (match touched with None => [] | Some t => t end)).
Proof.
  intros Hs Ht.
  destruct (has_liberties_correct s touched st Hs Ht)
    as (r & Hrun & Htrue & Hfalse).
  exists r. split; [exact Hrun|]. split; [exact Htrue|].
  intros (e & He & Hne). destruct r; [reflexivity|].
  exfalso. apply Hne. now apply Hfalse.
Qed.

Lemma has_liberties_decides_witness :
  cell (board corner_position) (js "ab") <> EMPTY /\
  exists r,
    has_liberties (js "ab") (Some [js "aa"]) corner_position =
      Some (r, corner_position) /\
    (r = true <->
     exists e, liberty (board corner_position) (js "ab") e /\
               ~ In e [js "aa"]).
Proof.
  assert (H1 : cell (board corner_position) (js "ab") <> EMPTY)
    by (vm_compute; discriminate).
  split; [exact H1|].
  apply (@has_liberties_decides corner_position (js "ab")
           (Some [js "aa"]) H1).
  intros x [<-|[]]. vm_compute. discriminate.
Defined.

(** X6. On a stone, [has_liberties] says what a scan of [group_at] would:
    it answers true exactly when some member of the list [group_at] returns
    has an empty neighbour. *)
Theorem has_liberties_scans_group (st : GameState) (s : jstring) :
  cell (board st) s <> EMPTY ->
  exists r g,
    has_liberties s None st = Some (r, st) /\
    group_at s st = Some (g, st) /\
    (r = true <->
     exists q e, In q g /\ In e (neighbours q) /\
                 cell (board st) e = EMPTY).
Proof.
  intros Hs.
  assert (Hnil : forall x : jstring, In x [] ->
             cell (board st) x <> cell (board st) s) by (intros x []).
  destruct (has_liberties_correct s None st Hs Hnil)
    as (r & Hrun & Htrue & Hfalse).
  destruct (group_at_stone s st Hs) as (g & Hg & _ & Hmem).
  exists r, g. split; [exact Hrun|]. split; [exact Hg|]. split.
  - intros Hr. destruct (Htrue Hr) as (e & (q & Hq & He & Hc) & _).
    exists q, e. split; [now apply Hmem|auto].
  - intros (q & e & Hq & He & Hc). destruct r; [reflexivity|].
    exfalso. apply (Hfalse eq_refl e). exists q.
    split; [now apply Hmem|auto].
Qed.

Lemma has_liberties_scans_group_witness :
  cell (board ko_position) (js "cb") <> EMPTY /\
  exists r g,
    has_liberties (js "cb") None ko_position = Some (r, ko_position) /\
    group_at (js "cb") ko_position = Some (g, ko_position) /\
    (r = true <->
     exists q e, In q g /\ In e (neighbours q) /\
                 cell (board ko_position) e = EMPTY).
Proof.
  assert (H1 : cell (board ko_position) (js "cb") <> EMPTY)
    by (vm_compute; discriminate).
  split; [exact H1|].
  exact (@has_liberties_scans_group ko_position (js "cb") H1).
Defined.

(** X7. [destroy_group] empties exactly the cells of the group of [s] and
    changes nothing else; the number it returns is the number of stones that
    left the board, at least one for a stone, and for an empty point it
    returns 0 and the state is as before. *)
Theorem destroy_group_effect (st : GameState) (s : jstring) :
  wf_board (board st) ->
  exists n st',
    destroy_group s st = Some (n, st') /\
    player st' = player st /\ ko st' = ko st /\ wf_board (board st') /\
    (forall q, conn (board st) s q -> cell (board st') q = EMPTY) /\
    (forall q, ~ conn (board st) s q ->
               cell (board st') q = cell (board st) q) /\
    n = Z.of_nat (length (filter
          (fun q : jstring =>
             negb (stone_eqb (cell (board st) q) EMPTY) &&
             stone_eqb (cell (board st') q) EMPTY) all_points)) /\
    (cell (board st) s = EMPTY -> n = 0 /\ st' = st) /\
    (cell (board st) s <> EMPTY -> 1 <= n).
Proof.
  intros Hwf.
  destruct (stone_eqb (cell (board st) s) EMPTY) eqn:Hs.
  - apply stone_eqb_eq in Hs.
    exists 0, st. split.
    { unfold destroy_group. rewrite (bind_run _ (group_at_empty _ _ Hs)).
      rewrite (bind_run _ (destroy_cells_run _ _)).
      destruct st; reflexivity. }
    split; [reflexivity|]. split; [reflexivity|]. split; [exact Hwf|].
    split; [intros q Hq; apply conn_colour in Hq; congruence|].
    split; [reflexivity|]. split; [|split; [auto|contradiction]].
    assert (Hnone : forall l : list jstring,
              filter (fun q : jstring =>
                        negb (stone_eqb (cell (board st) q) EMPTY) &&
                        stone_eqb (cell (board st) q) EMPTY) l = []).
    { induction l as [|a l IH]; [reflexivity|]. cbn [filter].
      destruct (stone_eqb (cell (board st) a) EMPTY); cbn; exact IH. }
    now rewrite Hnone.
  - apply stone_eqb_neq in Hs.
    destruct (destroy_group_stone s st Hwf Hs) as (g & Hrun & R & Hg).
    eexists. eexists. split; [exact Hrun|]. cbn [board player ko].
    split; [reflexivity|]. split; [reflexivity|].
    split; [apply wf_clear, Hwf|].
    split; [intros q Hq; apply (rm_mem R); now apply Hg|].
    split.
    { intros q Hq. destruct (rm_frame R q) as [|He]; auto.
      destruct (stone_eqb (cell (board st) q) EMPTY) eqn:Hq'.
      - apply stone_eqb_eq in Hq'. congruence.
      - apply stone_eqb_neq in Hq'. exfalso. apply Hq, Hg, (rm_mem R).
        auto. }
    assert (Hlen : length (filter
               (fun q : jstring =>
                  negb (stone_eqb (cell (board st) q) EMPTY) &&
                  stone_eqb (cell (clear (board st) g) q) EMPTY)
               all_points) = length g).
    { apply Permutation_length, NoDup_Permutation.
      - apply NoDup_filter, NoDup_all_points.
      - apply R.
      - intros q. rewrite filter_In, In_all_points, andb_true_iff,
          negb_true_iff, stone_eqb_neq, stone_eqb_eq, (rm_mem R).
        split; [tauto|]. intros [H1 H2].
        split; [eapply cell_in_bounds; eauto|auto]. }
    split; [now rewrite Hlen|]. split; [contradiction|].
    intros _. assert (In s g) by (apply Hg; constructor).
    destruct g; [contradiction|]. cbn [length]. lia.
Qed.

Lemma destroy_group_effect_witness :
  wf_board (board ko_position) /\
  exists n st',
    destroy_group (js "ab") ko_position = Some (n, st') /\
    1 <= n /\ cell (board st') (js "ab") = EMPTY.
Proof.
  assert (H1 : wf_board (board ko_position)).
  { split; [reflexivity|]. vm_compute. repeat constructor. }
  split; [exact H1|].
  destruct (@destroy_group_effect ko_position (js "ab") H1)
    as (n & st' & Hrun & _ & _ & _ & Hin & _ & _ & _ & Hpos).
  exists n, st'. split; [exact Hrun|]. split.
  - apply Hpos. vm_compute. discriminate.
  - apply Hin. constructor.
Defined.

(** X8. [empty_neighbour] returns [null] exactly when no neighbour is
    empty (so for every point out of bounds); otherwise it returns a
    neighbour whose cell is empty. It does not change the state. *)
Theorem empty_neighbour_finds (st : GameState) (s : jstring) :
  exists k,
    empty_neighbour s st = Some (k, st) /\
    (k = JNull <->
     forall n, In n (neighbours s) -> cell (board st) n <> EMPTY) /\
    (k = JNull \/
     exists e : jstring, k = JStr e /\ In e (neighbours s) /\
                         cell (board st) e = EMPTY).
Proof.
  eexists. split; [apply empty_neighbour_run|].
  assert (Hmem : forall x : jstring,
            In x (empty_neighbours (board st) s) <->
            In x (neighbours s) /\ cell (board st) x = EMPTY).
  { intros x. unfold empty_neighbours.
    now rewrite filter_In, stone_eqb_eq. }
  destruct (empty_neighbours (board st) s) as [|e rest].
  - split; [|now left]. split; [|reflexivity].
    intros _ n Hn Hc. apply (Hmem n). auto.
  - assert (He : In e (neighbours s) /\ cell (board st) e = EMPTY)
      by (apply Hmem; now left).
    split; [|right; exists e; tauto].
    split; [discriminate|]. intros H. exfalso.
    destruct He as [He1 He2]. exact (H e He1 He2).
Qed.

(** X9. [one_liberty_singleton] answers true exactly for a stone that has
    no neighbour of its colour and one single empty neighbour; for an empty
    or out-of-bounds point it answers false. It does not change the
    state. *)
Theorem one_liberty_singleton_iff (st : GameState) (s : jstring) :
  exists r,
    one_liberty_singleton s st = Some (r, st) /\
    (r = true <->
     cell (board st) s <> EMPTY /\
     (forall n, In n (neighbours s) ->
                cell (board st) n <> cell (board st) s) /\
     exists e, only_empty_neighbour (board st) s e).
Proof.
  eexists. split; [apply one_liberty_singleton_run|].
  rewrite lone_stone_true.
  assert (Hone : length (empty_neighbours (board st) s) = 1%nat <->
                 exists e, only_empty_neighbour (board st) s e).
  { split.
    - destruct (empty_neighbours (board st) s) as [|e [|e' l]] eqn:He;
        try discriminate.
      intros _. exists e. now apply only_empty_neighbour_list.
    - intros (e & He). apply only_empty_neighbour_list in He.
      now rewrite He. }
  rewrite Hone. tauto.
Qed.

(** ** Legal moves *)

Lemma legal_move_loop2_false (s : jstring) (ns : list jstring)
      (st st' : GameState) :
  cell (board st) s = EMPTY ->
  (forall n, In n ns -> cell (board st) n <> EMPTY) ->
  legal_move_loop2 s ns st = Some (false, st') ->
  forall n, In n ns ->
    (cell (board st) n = player st ->
     forall e, liberty (board st) n e -> e = s) /\
    (cell (board st) n <> player st ->
     exists e, liberty (board st) n e /\ e <> s).
Proof.
  intros Hs. induction ns as [|n rest IH]; intros Hne Hrun m Hm.
  - destruct Hm.
  - assert (Hn : cell (board st) n <> EMPTY) by (apply Hne; now left).
    assert (Hrest : forall m, In m rest -> cell (board st) m <> EMPTY)
      by (intros x Hx; apply Hne; now right).
    assert (Ht : forall x, In x (touch s []) ->
                           cell (board st) x <> cell (board st) n).
    { intros x [<-|[]]. congruence. }
    destruct (has_liberties_correct n (Some (touch s [])) st Hn Ht)
      as (h & Hh & Htrue & Hfalse).
    cbn [legal_move_loop2] in Hrun. rewrite bind_state_at in Hrun.
    unfold bind at 1, get_player at 1 in Hrun.
    destruct (stone_eqb (cell (board st) n) (player st)) eqn:Hp.
    + apply stone_eqb_eq in Hp.
      rewrite (bind_run _ Hh) in Hrun. destruct h; [discriminate|].
      destruct Hm as [<-|Hm]; [|now apply IH].
      split; [|congruence].
      intros _ e He. destruct (Hfalse eq_refl e He) as [|[]]; auto.
    + apply stone_eqb_neq in Hp.
      rewrite bind_state_at in Hrun.
      apply stone_eqb_neq in Hn. rewrite Hn in Hrun. cbn [negb] in Hrun.
      rewrite (bind_run _ Hh) in Hrun. destruct h; cbn [negb] in Hrun;
        [|discriminate].
      destruct Hm as [<-|Hm]; [|now apply IH].
      split; [congruence|].
      intros _. destruct (Htrue eq_refl) as (e & He & Hes).
      exists e. split; auto. intros ->. apply Hes. now left.
Qed.

Lemma legal_move_false (s : jstring) (st st' : GameState) :
  in_bounds s = true -> cell (board st) s = EMPTY ->
  strict_eq (ko st) s = false ->
  legal_move s st = Some (false, st') ->
  forall n, In n (neighbours s) ->
    cell (board st) n <> EMPTY /\
    (cell (board st) n = player st ->
     forall e, liberty (board st) n e -> e = s) /\
    (cell (board st) n <> player st ->
     exists e, liberty (board st) n e /\ e <> s).
Proof.
  intros Hb He Hko. unfold legal_move. rewrite Hb. cbn [negb].
  rewrite bind_state_at, He. cbn [stone_eqb negb].
  unfold bind at 1, get_ko at 1. rewrite Hko.
  unfold bind at 1. rewrite legal_move_loop1_run.
  destruct (existsb _ _) eqn:Hex; [discriminate|].
  intros Hrun.
  assert (Hne : forall n, In n (neighbours s) -> cell (board st) n <> EMPTY).
  { intros n Hn Hc. apply stone_eqb_eq in Hc.
    assert (existsb (fun n : jstring => stone_eqb (cell (board st) n) EMPTY)
                    (neighbours s) = true)
      by (apply existsb_exists; eauto).
    congruence. }
  intros n Hn. split; [now apply Hne|].
  exact (@legal_move_loop2_false s (neighbours s) st st' He Hne Hrun n Hn).
Qed.

(** The group of a stone put on the empty point [p] is [p] and the groups
    of its neighbours of that colour. *)
Lemma conn_put_inv (b : Board) (p : jstring) (c : stone) :
  wf_board b -> in_bounds p = true -> cell b p = EMPTY -> c <> EMPTY ->
  forall s q, conn (put b p c) s q -> cell (put b p c) s = c ->
    (s = p \/ exists n, In n (neighbours p) /\ cell b n = c /\ conn b n s) ->
    (q = p \/ exists n, In n (neighbours p) /\ cell b n = c /\ conn b n q).
Proof.
  intros Hwf Hb Hp Hc.
  induction 1 as [s|s n q Hn Hcol Hq IH]; intros Hs HP; [exact HP|].
  apply IH; [congruence|].
  destruct (jstring_eq_dec n p) as [->|Hnp]; [now left|].
  right.
  assert (Hbn : cell b n = c).
  { rewrite <- (cell_put_other b c Hb Hnp). congruence. }
  destruct HP as [->|(m & Hm & Hmc & Hms)].
  - exists n. split; [exact Hn|]. split; [exact Hbn|constructor].
  - exists m. split; [exact Hm|]. split; [exact Hmc|].
    eapply conn_snoc; eauto.
    apply conn_colour in Hms. congruence.
Qed.

(** X10. [legal_move] refuses an empty in-bounds point that is not the ko
    point only when the move is suicide: with the stone put there, its group
    has no liberty and every enemy group next to it has one. *)
Theorem legal_move_refuses_only_suicide (st : GameState) (p : jstring) :
  wf_state st -> in_bounds p = true -> cell (board st) p = EMPTY ->
  strict_eq (ko st) p = false ->
  legal_move p st = Some (false, st) ->
  no_liberty (put (board st) p (player st)) p /\
  captures_nothing (put (board st) p (player st)) p (player st).
Proof.
  intros [Hwf Hpl] Hb Hp Hko Hrun.
  pose proof (legal_move_false _ _ Hb Hp Hko Hrun) as Hall.
  set (b := board st) in *. set (c := player st) in *.
  set (b1 := put b p c) in *.
  assert (Hp1 : cell b1 p = c) by (apply cell_put_same; auto).
  assert (Hoth : forall q : jstring, q <> p -> cell b1 q = cell b q).
  { intros q Hq. now apply cell_put_other. }
  split.
  - intros e (q & Hq & He & Hempty).
    assert (Hep : e <> p) by (intros ->; congruence).
    assert (Heb : cell b e = EMPTY) by (rewrite <- Hoth; auto).
    destruct (@conn_put_inv b p c Hwf Hb Hp Hpl p q Hq Hp1 (or_introl eq_refl))
      as [->|(n & Hn & Hnc & Hnq)].
    + destruct (Hall e He) as [Hne _]. contradiction.
    + destruct (Hall n Hn) as (_ & Hfriend & _).
      apply Hep, (Hfriend Hnc). exists q. auto.
  - intros n Hn [Hn1 Hn2].
    assert (Hnp : n <> p) by (intros ->; congruence).
    rewrite (Hoth n Hnp) in Hn1, Hn2.
    destruct (Hall n Hn) as (_ & _ & Henemy).
    destruct (Henemy Hn2) as (e & (q & Hq & He & Hempty) & Hep).
    exists e, q. split; [|split; [exact He|]].
    + eapply conn_agree; eauto. intros x Hx. apply Hoth.
      intros ->. apply conn_colour in Hx. congruence.
    + rewrite Hoth; auto.
Qed.

Lemma legal_move_refuses_only_suicide_witness :
  wf_state corner_position /\ in_bounds (js "aa") = true /\
  cell (board corner_position) (js "aa") = EMPTY /\
  strict_eq (ko corner_position) (js "aa") = false /\
  legal_move (js "aa") corner_position = Some (false, corner_position) /\
  no_liberty (put (board corner_position) (js "aa") BLACK) (js "aa").
Proof.
  assert (H1 : wf_state corner_position).
  { split; [|discriminate].
    split; [reflexivity|]. vm_compute. repeat constructor. }
  assert (H2 : legal_move (js "aa") corner_position =
               Some (false, corner_position)) by (vm_compute; reflexivity).
  split; [exact H1|]. split; [reflexivity|]. split; [reflexivity|].
  split; [reflexivity|]. split; [exact H2|].
  exact (proj1 (@legal_move_refuses_only_suicide corner_position (js "aa")
                  H1 eq_refl eq_refl eq_refl H2)).
Defined.

Lemma enemy_same (c a b : stone) :
  c <> EMPTY -> enemy c a -> enemy c b -> a = b.
Proof.
  intros Hc [Ha1 Ha2] [Hb1 Hb2]. destruct c, a, b; congruence.
Qed.

(** A legal move never runs into the suicide branch of [play]: once the
    captures are made the new stone's group has a liberty. *)
Lemma legal_play_facts (st : GameState) (p : jstring) :
  wf_state st -> legal_move p st = Some (true, st) ->
  exists bL L k,
    play p st = Some (tt, {| board := bL; player := other (player st);
                             ko := k |}) /\
    wf_board bL /\
    removal (put (board st) p (player st)) bL L /\
    (forall q, In q L ->
               enemy (player st) (cell (put (board st) p (player st)) q)) /\
    (forall n, In n (neighbours p) -> enemy (player st) (cell bL n) ->
               exists e, liberty bL n e) /\
    cell bL p = player st /\
    exists e, liberty bL p e.
Proof.
  intros Hwfst Hlegal. pose proof Hwfst as [Hwf Hpl].
  destruct (legal_move_true _ _ Hlegal) as (Hb & Hp & _ & Hcases).
  destruct (@play_spec p st Hwfst Hb)
    as (bL & L & b' & k & Hrun & HwfL & _ & R & Hen & Hlib & _ & Hown & _).
  set (b := board st) in *. set (c := player st) in *.
  set (b1 := put b p c) in *.
  assert (Hp1 : cell b1 p = c) by (apply cell_put_same; auto).
  assert (Hoth : forall q : jstring, q <> p -> cell b1 q = cell b q).
  { intros q Hq. now apply cell_put_other. }
  assert (HpL : cell bL p = c).
  { destruct (rm_frame R p) as [|He]; [congruence|].
    assert (Hin : In p L) by (apply (rm_mem R); split; congruence).
    destruct (Hen p Hin) as [_ Hc]. congruence. }
  assert (HpL' : cell bL p <> EMPTY) by congruence.
  assert (Hstays : forall e : jstring, cell b1 e = EMPTY -> cell bL e = EMPTY).
  { intros e He. destruct (rm_frame R e); congruence. }
  assert (Hlive : exists e, liberty bL p e).
  { destruct Hcases as [(n & Hn & Hne)|(n & Hn & [(Hc & e & Hl & Hep)|
                                                  (Hc & Hne & Hl)])].
    - exists n, p. split; [constructor|]. split; [exact Hn|].
      apply Hstays. rewrite Hoth; auto.
      intros ->. exact (@neighbours_irrefl p Hn).
    - eapply removal_liberty; eauto.
      destruct Hl as (q & Hq & He & Hempty).
      assert (Hnp : n <> p) by (intros ->; fold b c in Hc; congruence).
      exists e, q. split; [|split; [exact He|]].
      + eapply conn_step; eauto.
        * rewrite Hp1, Hoth; auto.
        * eapply conn_agree; eauto. intros x Hx. apply Hoth.
          intros ->. apply conn_colour in Hx. fold b c in Hc. congruence.
      + rewrite Hoth; auto.
    - assert (Hnp : n <> p) by (intros ->; contradiction).
      assert (Hn1 : cell b1 n = cell b n) by now apply Hoth.
      assert (HnE : enemy c (cell b1 n)) by (rewrite Hn1; split; auto).
      assert (Hdead : forall e, ~ liberty b1 n e).
      { intros e (q & Hq & He & Hempty).
        assert (Hep : e <> p) by (intros ->; congruence).
        apply Hep, Hl. exists q. split; [|split; [exact He|]].
        - eapply conn_agree; eauto. intros x Hx. symmetry. apply Hoth.
          intros ->. apply conn_colour in Hx. destruct HnE. congruence.
        - rewrite <- Hoth; auto. }
      destruct (stone_eqb (cell bL n) EMPTY) eqn:HnL.
      { apply stone_eqb_eq in HnL.
        exists n, p. split; [constructor|]. auto. }
      apply stone_eqb_neq in HnL. exfalso.
      assert (HnL1 : cell bL n = cell b1 n).
      { destruct (rm_frame R n); congruence. }
      assert (HnLE : enemy c (cell bL n)) by now rewrite HnL1.
      destruct (Hlib n Hn HnLE) as (e & q & Hq & He & Hempty).
      assert (Hq1 : conn b1 n q).
      { eapply conn_agree; eauto. intros x Hx.
        destruct (rm_frame R x) as [|Hx']; [congruence|].
        apply conn_colour in Hx. congruence. }
      assert (He1 : cell b1 e <> EMPTY).
      { intros He1. apply (Hdead e). exists q. auto. }
      assert (HeL : In e L) by (apply (rm_mem R); auto).
      assert (Hcol : cell b1 e = cell b1 q).
      { apply (@enemy_same c); auto.
        rewrite (conn_colour Hq1). exact HnE. }
      assert (Hnce : conn b1 n e) by (eapply conn_snoc; eauto).
      apply HnL. eapply (rm_whole R); [apply conn_sym, Hnce|exact Hempty]. }
  destruct Hown as [[_ ->]|[Hno _]].
  - exists bL, L, k. repeat (split; [assumption|]). exact Hlive.
  - exfalso. destruct Hlive as (e & He). exact (Hno e He).
Qed.

(** X11. A move that [legal_move] accepted is carried out by [play] without
    loss for the mover: the new stone stands and its group has a liberty,
    the turn passes, and every other cell is as before or held an enemy
    stone that is now gone. *)
Theorem legal_move_then_play (st : GameState) (p : jstring) :
  wf_state st -> legal_move p st = Some (true, st) ->
  exists st',
    play p st = Some (tt, st') /\
    player st' = other (player st) /\
    cell (board st') p = player st /\
    (exists e, liberty (board st') p e) /\
    forall q : jstring, q <> p ->
      cell (board st') q = cell (board st) q \/
      (enemy (player st) (cell (board st) q) /\
       cell (board st') q = EMPTY).
Proof.
  intros Hwfst Hlegal.
  destruct (legal_move_true _ _ Hlegal) as (Hb & _).
  destruct (@legal_play_facts st p Hwfst Hlegal)
    as (bL & L & k & Hrun & _ & R & Hen & _ & HpL & Hlive).
  eexists. split; [exact Hrun|]. cbn [board player].
  split; [reflexivity|]. split; [exact HpL|]. split; [exact Hlive|].
  intros q Hq.
  assert (Hq1 : cell (put (board st) p (player st)) q = cell (board st) q)
    by now apply cell_put_other.
  destruct (rm_frame R q) as [Heq|Hempty]; [left; congruence|].
  destruct (stone_eqb (cell (board st) q) EMPTY) eqn:Hc.
  - apply stone_eqb_eq in Hc. left. congruence.
  - apply stone_eqb_neq in Hc. right. split; [|exact Hempty].
    rewrite <- Hq1. apply Hen, (rm_mem R). split; congruence.
Qed.

Lemma legal_move_then_play_witness :
  wf_state ko_setup /\
  legal_move (js "cb") ko_setup = Some (true, ko_setup) /\
  exists st',
    play (js "cb") ko_setup = Some (tt, st') /\
    cell (board st') (js "cb") = player ko_setup.
Proof.
  assert (H1 : wf_state ko_setup).
  { split; [|discriminate].
    split; [reflexivity|]. vm_compute. repeat constructor. }
  assert (H2 : legal_move (js "cb") ko_setup = Some (true, ko_setup))
    by (vm_compute; reflexivity).
  split; [exact H1|]. split; [exact H2|].
  destruct (@legal_move_then_play ko_setup (js "cb") H1 H2)
    as (st' & Hrun & _ & Hp & _).
  exists st'. split; [exact Hrun|exact Hp].
Defined.

Lemma play_keeps_alive (st st' : GameState) (p : jstring) :
  wf_state st -> alive (board st) ->
  legal_move p st = Some (true, st) -> play p st = Some (tt, st') ->
  alive (board st').
Proof.
  intros Hwfst Halive Hlegal Hplay. pose proof Hwfst as [Hwf Hpl].
  destruct (legal_move_true _ _ Hlegal) as (Hb & Hp & _).
  destruct (@legal_play_facts st p Hwfst Hlegal)
    as (bL & L & k & Hrun & _ & R & Hen & Hlib & HpL & Hlive).
  rewrite Hrun in Hplay. inversion Hplay; subst st'. cbn [board].
  set (b := board st) in *. set (c := player st) in *.
  set (b1 := put b p c) in *.
  assert (Hp1 : cell b1 p = c) by (apply cell_put_same; auto).
  assert (Hoth : forall q : jstring, q <> p -> cell b1 q = cell b q).
  { intros q Hq. now apply cell_put_other. }
  intros m Hm.
  destruct (jstring_eq_dec m p) as [->|Hmp]; [exact Hlive|].
  assert (Hm1 : cell b1 m = cell bL m).
  { destruct (rm_frame R m); congruence. }
  assert (Hmb : cell b m <> EMPTY) by (rewrite <- Hoth; congruence).
  destruct (Halive m Hmb) as (e & q & Hq & He & Hempty).
  assert (Hq1 : conn b1 m q).
  { eapply conn_agree; eauto. intros x Hx. apply Hoth.
    intros ->. apply conn_colour in Hx. congruence. }
  destruct (removal_conn R Hm Hq1) as [HqL HqLc].
  destruct (jstring_eq_dec e p) as [->|Hep].
  - assert (Hqp : In q (neighbours p)) by now apply neighbours_sym.
    destruct (stone_eqb (cell b1 m) c) eqn:Hcol.
    + (* a stone of the mover next to the new stone: one group with it *)
      apply stone_eqb_eq in Hcol.
      destruct Hlive as (e' & He').
      exists e'. eapply liberty_conn; [|exact He'].
      eapply conn_snoc; [exact HqL|exact He|].
      rewrite HpL, HqLc, (conn_colour Hq1). congruence.
    + (* an enemy stone next to the new stone *)
      apply stone_eqb_neq in Hcol.
      assert (HqE : enemy c (cell bL q)).
      { rewrite HqLc, (conn_colour Hq1). split; congruence. }
      destruct (Hlib q Hqp HqE) as (e' & He').
      exists e'. eapply liberty_conn; eauto.
  - eapply removal_liberty; eauto.
    exists e, q. split; [exact Hq1|]. split; [exact He|].
    rewrite Hoth; auto.
Qed.

(** X12. In every state a game can reach the board is 19 by 19, the player
    to move is Black or White, and no group on the board is without a
    liberty. *)
Theorem reachable_alive (st : GameState) :
  reachable st -> wf_state st /\ alive (board st).
Proof.
  induction 1 as [|st st' v Hr [IHwf IH] Hl Hp|st st' v Hr [IHwf IH] Hb Hp].
  - split; [split; [apply wf_initial_board|discriminate]|].
    intros m Hm. exfalso. apply Hm.
    destruct (in_bounds m) eqn:Hb; [|now apply cell_out_of_bounds].
    destruct (in_bounds_names _ Hb) as (x & y & Hn & _).
    rewrite (cell_names _ Hn). destruct Hn as (Hx & Hy & _).
    unfold board_get, initial_state, initial_board. cbn [board].
    assert (Hrep : forall (A : Type) (a : A) (n k : nat),
              nth k (repeat a n) a = a).
    { intros A a n. induction n as [|n IHn]; intros [|k]; cbn; auto. }
    assert (Hcol : nth (Z.to_nat x) (repeat (repeat EMPTY 19) 19) [] =
                   repeat EMPTY 19).
    { apply nth_repeat_lt. lia. }
    rewrite Hcol. apply Hrep.
  - pose proof (legal_move_in_bounds _ _ Hl) as Hb.
    destruct (in_bounds_string _ Hb) as (s & ->).
    split; [|eapply play_keeps_alive; eauto].
    destruct (@legal_play_facts st s IHwf Hl) as (bL & L & k & Hrun & HwfL & _).
    rewrite Hrun in Hp. inversion Hp; subst.
    split; [exact HwfL|apply other_not_empty].
  - rewrite (play_pass _ _ Hb) in Hp. inversion Hp; subst.
    split; [split; [apply IHwf|apply other_not_empty]|exact IH].
Qed.

Lemma reachable_alive_witness :
  reachable ko_position /\
  wf_state ko_position /\ alive (board ko_position).
Proof.
  assert (H : reachable ko_position).
  { apply run_game_reachable with (moves := ko_moves) (st := initial_state).
    - apply reach_init.
    - vm_compute. reflexivity. }
  split; [exact H|exact (reachable_alive H)].
Defined.

(** X13. On a well-formed state [play] returns for every input, legal or
    not, keeps the board 19 by 19 and hands the turn to the other colour. *)
Theorem play_total (st : GameState) (v : jsval) :
  wf_state st ->
  exists st',
    play v st = Some (tt, st') /\ wf_state st' /\
    player st' = other (player st) /\ player st' <> player st.
Proof.
  intros Hwfst. destruct (in_bounds v) eqn:Hb.
  - destruct (in_bounds_string _ Hb) as (s & ->).
    destruct (@play_spec s st Hwfst Hb)
      as (bL & L & b' & k & Hrun & _ & Hwf' & _).
    eexists. split; [exact Hrun|]. cbn [player].
    split; [split; [exact Hwf'|apply other_not_empty]|].
    split; [reflexivity|apply other_neq].
  - eexists. split; [apply (play_pass _ _ Hb)|]. cbn [player].
    split; [split; [apply Hwfst|apply other_not_empty]|].
    split; [reflexivity|apply other_neq].
Qed.

Lemma play_total_witness :
  wf_state corner_position /\
  exists st',
    play (js "aa") corner_position = Some (tt, st') /\ wf_state st' /\
    player st' = other (player corner_position) /\
    player st' <> player corner_position.
Proof.
  assert (H1 : wf_state corner_position).
  { split; [|discriminate].
    split; [reflexivity|]. vm_compute. repeat constructor. }
  split; [exact H1|].
  exact (@play_total corner_position (js "aa") H1).
Defined.

(** ** The sibling script *)

Lemma bind_cong {A B} (m1 m2 : M A) (k1 k2 : A -> M B) (st : GameState) :
  m1 st = m2 st ->
  (forall a st', m2 st = Some (a, st') -> k1 a st' = k2 a st') ->
  bind m1 k1 st = bind m2 k2 st.
Proof.
  intros Hm Hk. unfold bind. rewrite Hm.
  destruct (m2 st) as [[a st']|]; auto.
Qed.

Lemma sibling_has_liberties_stone (s : jstring) (st : GameState) :
  cell (board st) s <> EMPTY ->
  Sibling.has_liberties s st = has_liberties s None st.
Proof.
  intros Hs. unfold Sibling.has_liberties. rewrite bind_state_at.
  apply stone_eqb_neq in Hs. rewrite Hs. reflexivity.
Qed.

Lemma group_at_total (s : jstring) (st : GameState) :
  exists g, group_at s st = Some (g, st).
Proof.
  destruct (stone_eqb (cell (board st) s) EMPTY) eqn:He.
  - apply stone_eqb_eq in He. exists []. now apply group_at_empty.
  - apply stone_eqb_neq in He.
    destruct (group_at_stone s st He) as (g & H & _). eauto.
Qed.

Lemma sibling_destroy_group (s : jstring) (st : GameState) :
  Sibling.destroy_group s st = destroy_group s st.
Proof.
  unfold Sibling.destroy_group, destroy_group.
  destruct (group_at_total s st) as (g & Hg).
  rewrite !(bind_run _ Hg). reflexivity.
Qed.

Lemma sibling_play_loop (colour : stone) (ns : list jstring) :
  forall (caps : Z) (st : GameState),
  Sibling.play_loop colour ns caps st = play_loop colour ns caps st.
Proof.
  induction ns as [|n rest IH]; intros caps st; [reflexivity|].
  cbn [Sibling.play_loop play_loop]. rewrite !bind_state_at.
  destruct (negb (stone_eqb (cell (board st) n) EMPTY) &&
            negb (stone_eqb (cell (board st) n) colour)) eqn:Htest;
    [|apply IH].
  apply enemy_test in Htest.
  apply bind_cong; [apply sibling_has_liberties_stone, Htest|].
  intros h st' Hh.
  destruct (has_liberties_run n None st) as (h' & _ & Hh' & _).
  rewrite Hh' in Hh. inversion Hh; subst h' st'.
  destruct h; cbn [negb]; [apply IH|].
  apply bind_cong; [apply sibling_destroy_group|].
  intros k st1 _. apply IH.
Qed.

(** X14. As long as the player to move is Black or White, the sibling
    script's [legal_move], which compares neighbours with the inactive
    colour, gives the answer of the main script's, which compares them with
    [EMPTY]. *)
Theorem sibling_legal_move_agrees (st : GameState) (v : jsval) :
  player st <> EMPTY ->
  Sibling.legal_move v st = legal_move v st.
Proof.
  intros Hpl.
  assert (Hloop : forall (s : jstring) (ns : list jstring),
    Sibling.legal_move_loop2 s (other (player st)) ns st =
    legal_move_loop2 s ns st).
  { intros s ns. induction ns as [|n rest IH]; [reflexivity|].
    cbn [Sibling.legal_move_loop2 legal_move_loop2].
    rewrite !bind_state_at.
    apply bind_cong; [reflexivity|]. intros p st' Hget.
    inversion Hget; subst p st'.
    destruct (has_liberties_run n (Some (touch s [])) st)
      as (h & _ & Hh & _).
    change (Sibling.has_liberties_recurse n (touch s []))
      with (has_liberties n (Some (touch s []))).
    destruct (stone_eqb (cell (board st) n) (player st)) eqn:Hp.
    - rewrite !(bind_run _ Hh). destruct h; auto.
    - rewrite !bind_state_at.
      assert (Hsame : stone_eqb (cell (board st) n) (other (player st)) =
                      negb (stone_eqb (cell (board st) n) EMPTY)).
      { destruct (cell (board st) n), (player st); cbn in *;
          congruence. }
      rewrite Hsame.
      destruct (negb (stone_eqb (cell (board st) n) EMPTY)); auto.
      rewrite !(bind_run _ Hh). destruct h; auto. }
  unfold Sibling.legal_move, legal_move.
  destruct (in_bounds v); cbn [negb]; [|reflexivity].
  rewrite !bind_state_at.
  destruct (stone_eqb (cell (board st) v) EMPTY); cbn [negb];
    [|reflexivity].
  apply bind_cong; [reflexivity|]. intros k st' Hk.
  inversion Hk; subst k st'.
  destruct (strict_eq (ko st) v); [reflexivity|].
  destruct v as [| | | |s]; try reflexivity.
  rewrite !(bind_run _ (legal_move_loop1_run _ _)).
  destruct (existsb _ _); [reflexivity|].
  unfold bind at 1, get_player at 1. apply Hloop.
Qed.

Lemma sibling_legal_move_agrees_witness :
  player ko_position <> EMPTY /\
  Sibling.legal_move (js "bb") ko_position =
  legal_move (js "bb") ko_position.
Proof.
  assert (H : player ko_position <> EMPTY) by (cbn; discriminate).
  split; [exact H|].
  exact (@sibling_legal_move_agrees ko_position (js "bb") H).
Defined.

(** X15. On a well-formed state the sibling script's [play], which goes
    through the guarded [has_liberties], does exactly what the main
    script's [play] does: the guard never fires there. *)
Theorem sibling_play_agrees (st : GameState) (v : jsval) :
  wf_state st -> Sibling.play v st = play v st.
Proof.
  intros [Hwf Hpl]. unfold Sibling.play, play.
  apply bind_cong; [reflexivity|]. intros colour st0 H0.
  inversion H0; subst colour st0.
  apply bind_cong; [reflexivity|]. intros u st1 H1.
  apply bind_cong; [reflexivity|]. intros p st2 H2.
  apply bind_cong; [reflexivity|]. intros u' st3 H3.
  destruct (in_bounds v) eqn:Hb; cbn [negb]; [|reflexivity].
  destruct (in_bounds_string _ Hb) as (s & ->).
  unfold s_to_xy.
  apply bind_cong; [reflexivity|]. intros u'' st4 H4.
  inversion H1; subst u st1. inversion H2; subst p st2.
  inversion H3; subst u' st3. inversion H4; subst u'' st4.
  cbn [board player ko] in *.
  apply bind_cong; [apply sibling_play_loop|]. intros caps stL HL.
  set (b1 := board_set (board st) (charCodeAt s 0 - 97)
                       (charCodeAt s 1 - 97) (player st)) in *.
  assert (Hput : b1 = put (board st) s (player st)) by reflexivity.
  match type of HL with
  | play_loop _ _ _ ?st1 = _ =>
      destruct (play_loop_spec (player st) (neighbours s) st1 0)
        as (bL & L & Hloop & HwfL & R & Hen & _)
  end.
  { cbn [board]. rewrite Hput. apply wf_put, Hwf. }
  rewrite Hloop in HL. inversion HL; subst caps stL.
  cbn [board] in R, Hen.
  assert (HpL : cell bL s <> EMPTY).
  { assert (Hp1 : cell b1 s = player st)
      by (rewrite Hput; apply cell_put_same; auto).
    destruct (rm_frame R s) as [|He]; [congruence|].
    assert (Hin : In s L) by (apply (rm_mem R); split; congruence).
    destruct (Hen s Hin) as [_ Hc]. congruence. }
  apply bind_cong; [now apply sibling_has_liberties_stone|].
  intros h st5 _.
  apply bind_cong; [|reflexivity].
  destruct h; cbn [negb]; [reflexivity|].
  apply bind_cong; [apply sibling_destroy_group|reflexivity].
Qed.

Lemma sibling_play_agrees_witness :
  wf_state ko_setup /\
  Sibling.play (js "cb") ko_setup = play (js "cb") ko_setup.
Proof.
  assert (H1 : wf_state ko_setup).
  { split; [|discriminate].
    split; [reflexivity|]. vm_compute. repeat constructor. }
  split; [exact H1|].
  exact (@sibling_play_agrees ko_setup (js "cb") H1).
Defined.

(** ** The canvas *)

(** X16. Whatever the pixel, [canvas_xy_to_xy] gives a pair inside the
    board: pixels left of or above the canvas go to line 0, pixels right of
    or below it to line 18. *)
Theorem canvas_xy_to_xy_clamps (gx gy : Z) :
  0 <= fst (canvas_xy_to_xy gx gy) < 19 /\
  0 <= snd (canvas_xy_to_xy gx gy) < 19 /\
  (gx < 0 -> fst (canvas_xy_to_xy gx gy) = 0) /\
  (19 * square_size <= gx -> fst (canvas_xy_to_xy gx gy) = 18) /\
  (gy < 0 -> snd (canvas_xy_to_xy gx gy) = 0) /\
  (19 * square_size <= gy -> snd (canvas_xy_to_xy gx gy) = 18).
Proof.
  unfold canvas_xy_to_xy, square_size. cbn [fst snd].
  destruct (Z.ltb_spec (gx / 40) 0), (Z.ltb_spec (gy / 40) 0);
    repeat match goal with
           | |- context [?a >=? 19] => destruct (Z.geb_spec a 19)
           end;
    repeat split; intros; try lia;
      Z.div_mod_to_equations; lia.
Qed.

(** X17. Every pixel of the square drawn around a board point, its centre
    [xy_to_canvas_xy] among them, is mapped back to that point by
    [canvas_xy_to_xy]. *)
Theorem canvas_round_trip (x y dx dy : Z) :
  0 <= x < 19 -> 0 <= y < 19 ->
  0 <= dx < square_size -> 0 <= dy < square_size ->
  canvas_xy_to_xy (x * square_size + dx) (y * square_size + dy) = (x, y) /\
  canvas_xy_to_xy (fst (xy_to_canvas_xy x y)) (snd (xy_to_canvas_xy x y))
  = (x, y).
Proof.
  intros Hx Hy Hdx Hdy. unfold square_size in *.
  assert (Hdiv : forall a d, 0 <= d < 40 -> (a * 40 + d) / 40 = a).
  { intros a d Hd. rewrite Z.div_add_l by lia.
    rewrite (Z.div_small d 40) by lia. lia. }
  assert (Hin : forall a b da db,
            0 <= a < 19 -> 0 <= b < 19 -> 0 <= da < 40 -> 0 <= db < 40 ->
            canvas_xy_to_xy (a * 40 + da) (b * 40 + db) = (a, b)).
  { intros a b da db Ha Hb Hda Hdb.
    unfold canvas_xy_to_xy, square_size. rewrite !Hdiv by assumption.
    destruct (Z.ltb_spec a 0), (Z.ltb_spec b 0); try lia.
    destruct (Z.geb_spec a 19), (Z.geb_spec b 19); try lia.
    reflexivity. }
  split; [now apply Hin|].
  unfold xy_to_canvas_xy, square_size. cbn [fst snd].
  change (40 / 2) with 20. apply Hin; lia.
Qed.

Lemma canvas_round_trip_witness :
  (0 <= 3 < 19 /\ 0 <= 15 < 19 /\
   0 <= 39 < square_size /\ 0 <= 0 < square_size) /\
  canvas_xy_to_xy (3 * square_size + 39) (15 * square_size + 0) = (3, 15).
Proof.
  assert (H1 : 0 <= 3 < 19) by lia.
  assert (H2 : 0 <= 15 < 19) by lia.
  assert (H3 : 0 <= 39 < square_size) by (unfold square_size; lia).
  assert (H4 : 0 <= 0 < square_size) by (unfold square_size; lia).
  split; [auto|].
  exact (proj1 (canvas_round_trip H1 H2 H3 H4)).
Defined.

(** X18. A mouse click in a reachable state always ends in a reachable
    state: either nothing changed, or a stone of the player to move now
    stands on a point that was empty and the turn has passed. A click never
    passes and never overwrites a stone. *)
Theorem on_mousedown_reachable (st : GameState) (offsetX offsetY : Z) :
  reachable st ->
  exists st',
    on_mousedown offsetX offsetY st = Some (tt, st') /\
    reachable st' /\
    (st' = st \/
     (player st' = other (player st) /\
      exists s : jstring,
        in_bounds s = true /\ cell (board st) s = EMPTY /\
        cell (board st') s = player st)).
Proof.
  intros Hr. unfold on_mousedown.
  destruct (canvas_xy_to_xy offsetX offsetY) as [x y] eqn:Hxy.
  set (s := xy_to_s x y).
  destruct (legal_move_total s st) as (ok & Hok).
  rewrite (bind_run _ Hok). destruct ok.
  - destruct (legal_move_true _ _ Hok) as (Hb & Hp & _).
    destruct (@legal_play_facts st s (reachable_wf Hr) Hok)
      as (bL & L & k & Hrun & _ & _ & _ & _ & HpL & _).
    eexists. split; [exact Hrun|].
    split; [eapply reach_move; eauto|].
    right. cbn [player board]. split; [reflexivity|].
    exists s. auto.
  - exists st. split; [reflexivity|]. split; [exact Hr|now left].
Qed.

Lemma on_mousedown_reachable_witness :
  reachable initial_state /\
  exists st',
    on_mousedown 130 (-5) initial_state = Some (tt, st') /\
    reachable st'.
Proof.
  assert (H : reachable initial_state) by apply reach_init.
  split; [exact H|].
  destruct (@on_mousedown_reachable initial_state 130 (-5) H)
    as (st' & Hrun & Hr & _).
  exists st'. split; [exact Hrun|exact Hr].
Defined.

(** ** What a move takes off the board *)

Lemma play_loop_removed (colour : stone) (ns : list jstring) :
  forall (st st' : GameState) (caps caps' : Z),
  wf_board (board st) ->
  play_loop colour ns caps st = Some (caps', st') ->
  forall q : jstring,
    cell (board st) q <> EMPTY -> cell (board st') q = EMPTY ->
    (forall e, ~ liberty (board st) q e) /\
    exists n, In n ns /\ conn (board st) n q.
Proof.
  induction ns as [|n rest IH]; intros st st' caps caps' Hwf Hrun q Hq Hq'.
  - inversion Hrun; subst. contradiction.
  - cbn [play_loop] in Hrun. rewrite bind_state_at in Hrun.
    assert (Hlater : forall caps0,
              play_loop colour rest caps0 st = Some (caps', st') ->
              (forall e, ~ liberty (board st) q e) /\
              exists m, In m (n :: rest) /\ conn (board st) m q).
    { intros caps0 H0.
      destruct (IH st st' caps0 caps' Hwf H0 q Hq Hq') as [Hd (m & Hm & Hc)].
      split; [exact Hd|]. exists m. split; [now right|exact Hc]. }
    destruct (negb (stone_eqb (cell (board st) n) EMPTY) &&
              negb (stone_eqb (cell (board st) n) colour)) eqn:Htest;
      [|eapply Hlater; eauto].
    apply enemy_test in Htest.
    assert (Hnil : forall x : jstring, In x [] ->
               cell (board st) x <> cell (board st) n) by (intros x []).
    destruct (has_liberties_correct n None st (proj1 Htest) Hnil)
      as (h & Hh & _ & Hfalse).
    rewrite (bind_run _ Hh) in Hrun. destruct h; cbn [negb] in Hrun;
      [eapply Hlater; eauto|].
    destruct (destroy_group_stone n st Hwf (proj1 Htest))
      as (g & Hd & Rg & Hg).
    rewrite (bind_run _ Hd) in Hrun.
    set (st1 := {| board := clear (board st) g;
                   player := player st; ko := ko st |}) in *.
    assert (Hwf1 : wf_board (board st1)) by (apply wf_clear, Hwf).
    destruct (stone_eqb (cell (board st1) q) EMPTY) eqn:Hq1.
    + apply stone_eqb_eq in Hq1.
      assert (Hnq : conn (board st) n q).
      { apply Hg, (rm_mem Rg). auto. }
      split; [|exists n; split; [now left|exact Hnq]].
      intros e He.
      exact (Hfalse eq_refl e (liberty_conn Hnq He)).
    + apply stone_eqb_neq in Hq1.
      destruct (IH st1 st' _ caps' Hwf1 Hrun q Hq1 Hq')
        as [Hdead (m & Hm & Hmq)].
      split.
      * intros e He. destruct (removal_liberty Rg Hq1 (ex_intro _ e He))
          as (e' & He'). exact (Hdead e' He').
      * exists m. split; [now right|].
        eapply conn_agree; eauto. intros x Hx.
        destruct (rm_frame Rg x) as [Heq|Hempty]; [now symmetry|].
        exfalso. apply Hq1.
        rewrite (conn_colour Hmq), <- (conn_colour Hx). exact Hempty.
Qed.

Lemma play_unfold (s : jstring) (st : GameState) :
  in_bounds s = true ->
  play s st =
  (caps <- play_loop (player st) (neighbours s) 0 ;;
   h <- has_liberties s None ;;
   (if negb h then destroy_group s ;;; ret tt else ret tt) ;;;
   if caps =? 1 then
     single <- one_liberty_singleton s ;;
     (if single then k <- empty_neighbour s ;; set_ko k else ret tt)
   else ret tt)
    {| board := put (board st) s (player st);
       player := other (player st); ko := JNull |}.
Proof.
  intros Hb. unfold play, put. rewrite Hb. cbn [negb].
  destruct (s_to_xy s) as [x y]. reflexivity.
Qed.

Lemma ko_step_board (s : jstring) (caps : Z) (st st' : GameState) :
  (if caps =? 1 then
     single <- one_liberty_singleton s ;;
     (if single then k <- empty_neighbour s ;; set_ko k else ret tt)
   else ret tt) st = Some (tt, st') ->
  board st' = board st.
Proof.
  destruct (caps =? 1); [|intros H; inversion H; reflexivity].
  rewrite (bind_run _ (one_liberty_singleton_run _ _)).
  destruct (lone_stone (board st) s);
    [|intros H; inversion H; reflexivity].
  rewrite (bind_run _ (empty_neighbour_run _ _)).
  intros H. inversion H. reflexivity.
Qed.

(** X19. [play] takes an enemy stone off the board only if, with the new
    stone placed, the stone's group has no liberty and reaches a neighbour
    of the point played; a group that has a liberty is never captured. *)
Theorem play_captures_only_dead_groups (st st' : GameState) (p : jstring) :
  wf_state st -> in_bounds p = true ->
  play p st = Some (tt, st') ->
  forall q : jstring,
    enemy (player st) (cell (put (board st) p (player st)) q) ->
    cell (board st') q = EMPTY ->
    no_liberty (put (board st) p (player st)) q /\
    exists n, In n (neighbours p) /\
              conn (put (board st) p (player st)) n q.
Proof.
  intros [Hwf Hpl] Hb Hplay q Hq Hq'.
  rewrite (@play_unfold p st Hb) in Hplay.
  set (c := player st) in *. set (b1 := put (board st) p c) in *.
  set (st1 := {| board := b1; player := other c; ko := JNull |}) in *.
  assert (Hwf1 : wf_board (board st1)) by (apply wf_put, Hwf).
  destruct (play_loop_spec c (neighbours p) st1 0 Hwf1)
    as (bL & L & Hloop & HwfL & R & Hen & _).
  cbn [board player ko st1] in Hloop, R, Hen.
  rewrite (bind_run _ Hloop) in Hplay.
  set (stL := {| board := bL; player := other c; ko := JNull |}) in *.
  assert (HpL : cell bL p = c).
  { assert (Hp1 : cell b1 p = c) by (apply cell_put_same; auto).
    destruct (rm_frame R p) as [|He]; [congruence|].
    assert (Hin : In p L) by (apply (rm_mem R); split; congruence).
    destruct (Hen p Hin) as [_ Hc]. congruence. }
  assert (HqL : cell bL q = EMPTY).
  { destruct (has_liberties_run p None stL) as (h & _ & Hh & _).
    rewrite (bind_run _ Hh) in Hplay. destruct h; cbn [negb] in Hplay.
    - unfold bind at 1, ret at 1 in Hplay.
      apply ko_step_board in Hplay. change (board st' = bL) in Hplay.
      congruence.
    - assert (HpL' : cell (board stL) p <> EMPTY) by (cbn; congruence).
      destruct (destroy_group_stone p stL HwfL HpL') as (G & Hd & RG & HG).
      cbn [board player ko stL] in Hd, RG, HG.
      unfold bind at 1 in Hplay. unfold bind at 1 in Hplay.
      rewrite Hd in Hplay. unfold ret at 1 in Hplay.
      apply ko_step_board in Hplay. cbn [board] in Hplay.
      rewrite Hplay in Hq'.
      destruct (stone_eqb (cell bL q) EMPTY) eqn:Hc;
        [now apply stone_eqb_eq|].
      apply stone_eqb_neq in Hc. exfalso.
      assert (HqG : In q G) by (apply (rm_mem RG); auto).
      apply HG, conn_colour in HqG.
      destruct (rm_frame R q) as [Heq|]; [|contradiction].
      destruct Hq as [_ Hq]. congruence. }
  exact (@play_loop_removed c (neighbours p) st1 _ 0 _ Hwf1 Hloop q
           (proj1 Hq) HqL).
Qed.

Lemma play_captures_only_dead_groups_witness :
  wf_state ko_setup /\ in_bounds (js "cb") = true /\
  play (js "cb") ko_setup = Some (tt, ko_position) /\
  enemy (player ko_setup)
        (cell (put (board ko_setup) (js "cb") (player ko_setup)) (js "bb")) /\
  cell (board ko_position) (js "bb") = EMPTY /\
  no_liberty (put (board ko_setup) (js "cb") (player ko_setup)) (js "bb").
Proof.
  assert (H1 : wf_state ko_setup).
  { split; [|discriminate].
    split; [reflexivity|]. vm_compute. repeat constructor. }
  assert (H2 : play (js "cb") ko_setup = Some (tt, ko_position))
    by (vm_compute; reflexivity).
  assert (H3 : enemy (player ko_setup)
                 (cell (put (board ko_setup) (js "cb") (player ko_setup))
                       (js "bb"))).
  { vm_compute. split; discriminate. }
  split; [exact H1|]. split; [reflexivity|]. split; [exact H2|].
  split; [exact H3|]. split; [reflexivity|].
  exact (proj1 (@play_captures_only_dead_groups ko_setup ko_position
                  (js "cb") H1 eq_refl H2 (js "bb") H3 eq_refl)).
Defined.

Lemma ko_step_ko (s : jstring) (caps : Z) (st st' : GameState) :
  (if caps =? 1 then
     single <- one_liberty_singleton s ;;
     (if single then k <- empty_neighbour s ;; set_ko k else ret tt)
   else ret tt) st = Some (tt, st') ->
  ko st' = ko st \/
  (caps = 1 /\ lone_stone (board st) s = true /\
   exists e rest, empty_neighbours (board st) s = e :: rest /\
                  ko st' = JStr e).
Proof.
  destruct (Z.eqb_spec caps 1) as [Hc|Hc];
    [|intros H; inversion H; now left].
  rewrite (bind_run _ (one_liberty_singleton_run _ _)).
  destruct (lone_stone (board st) s) eqn:Hl;
    [|intros H; inversion H; now left].
  rewrite (bind_run _ (empty_neighbour_run _ _)).
  intros H. inversion H. cbn [ko].
  destruct (empty_neighbours (board st) s) as [|e rest] eqn:He.
  - exfalso. apply lone_stone_true in Hl. rewrite He in Hl.
    destruct Hl as (_ & _ & Hl). discriminate.
  - right. split; [exact Hc|]. split; [reflexivity|]. eauto.
Qed.

(** X20. When a move leaves a ko point, that point is a neighbour of the
    point played, an enemy stone stood on it and was captured by the move,
    and it is the only stone the move captured. *)
Theorem ko_point_is_captured_stone (st st' : GameState) (p e : jstring) :
  wf_state st -> in_bounds p = true ->
  play p st = Some (tt, st') -> ko st' = JStr e ->
  In e (neighbours p) /\
  enemy (player st) (cell (put (board st) p (player st)) e) /\
  cell (board st') e = EMPTY /\
  forall q : jstring,
    enemy (player st) (cell (put (board st) p (player st)) q) ->
    cell (board st') q = EMPTY -> q = e.
Proof.
  intros [Hwf Hpl] Hb Hplay Hko.
  rewrite (@play_unfold p st Hb) in Hplay.
  set (c := player st) in *. set (b1 := put (board st) p c) in *.
  set (st1 := {| board := b1; player := other c; ko := JNull |}) in *.
  assert (Hwf1 : wf_board (board st1)) by (apply wf_put, Hwf).
  destruct (play_loop_spec c (neighbours p) st1 0 Hwf1)
    as (bL & L & Hloop & HwfL & R & Hen & _ & Hne).
  cbn [board player ko st1] in Hloop, R, Hen.
  rewrite (bind_run _ Hloop) in Hplay.
  set (stL := {| board := bL; player := other c; ko := JNull |}) in *.
  assert (HpL : cell bL p = c).
  { assert (Hp1 : cell b1 p = c) by (apply cell_put_same; auto).
    destruct (rm_frame R p) as [|He]; [congruence|].
    assert (Hin : In p L) by (apply (rm_mem R); split; congruence).
    destruct (Hen p Hin) as [_ Hc]. congruence. }
  assert (HpL' : cell (board stL) p <> EMPTY) by (cbn; congruence).
  assert (Hnil : forall x : jstring, In x [] ->
             cell (board stL) x <> cell (board stL) p) by (intros x []).
  destruct (has_liberties_correct p None stL HpL' Hnil)
    as (h & Hh & _ & Hfalse).
  rewrite (bind_run _ Hh) in Hplay.
  (* the ko point is set only after exactly one capture, and on bL *)
  assert (Hset : length L = 1%nat /\ board st' = bL /\
                 lone_stone bL p = true /\
                 exists rest, empty_neighbours bL p = e :: rest).
  { destruct h; cbn [negb] in Hplay.
    - unfold bind at 1, ret at 1 in Hplay.
      pose proof (ko_step_board _ _ _ Hplay) as Hboard.
      destruct (ko_step_ko _ _ _ Hplay)
        as [Hsame|(Hcaps & Hl & e' & rest & He' & Hk)].
      + rewrite Hko in Hsame. discriminate.
      + rewrite Hko in Hk. inversion Hk; subst e'.
        split; [lia|]. split; [exact Hboard|]. split; [exact Hl|]. eauto.
    - destruct (destroy_group_stone p stL HwfL HpL') as (G & Hd & RG & HG).
      unfold bind at 1 in Hplay. unfold bind at 1 in Hplay.
      rewrite Hd in Hplay. unfold ret at 1 in Hplay.
      destruct (ko_step_ko _ _ _ Hplay)
        as [Hsame|(Hcaps & _ & _)].
      + rewrite Hko in Hsame. discriminate.
      + exfalso. assert (HL : L <> []) by (intros ->; cbn in Hcaps; lia).
        destruct (Hne HL) as (n & Hn & Hc).
        apply (Hfalse eq_refl n). exists p. split; [constructor|]. auto. }
  destruct Hset as (Hlen & Hboard & Hlone & rest & Hempty).
  rewrite Hboard.
  destruct L as [|x [|x' L']]; try discriminate.
  (* the captured stone is a neighbour of p *)
  assert (Hx : cell b1 x <> EMPTY /\ cell bL x = EMPTY)
    by (apply (rm_mem R); now left).
  destruct (@play_loop_removed c (neighbours p) st1 _ 0 _ Hwf1 Hloop x
              (proj1 Hx) (proj2 Hx)) as [_ (n & Hn & Hnx)].
  change (conn b1 n x) in Hnx.
  assert (Hnx' : n = x).
  { assert (Hin : In n [x]).
    { apply (rm_mem R). split.
      - rewrite <- (conn_colour Hnx). apply Hx.
      - eapply (rm_whole R); [apply conn_sym, Hnx|apply Hx]. }
    destruct Hin as [<-|[]]. reflexivity. }
  subst n.
  (* p has one empty neighbour only, so it is x *)
  apply lone_stone_true in Hlone. destruct Hlone as (_ & _ & Hone).
  rewrite Hempty in Hone. destruct rest; [|discriminate].
  apply only_empty_neighbour_list in Hempty.
  destruct Hempty as (_ & _ & Huniq).
  assert (Hxe : x = e) by (apply Huniq; [exact Hn|apply Hx]).
  subst x.
  split; [exact Hn|]. split; [apply Hen; now left|].
  split; [apply Hx|].
  intros q Hq Hq'.
  assert (Hin : In q [e]) by (apply (rm_mem R); split; [apply Hq|exact Hq']).
  destruct Hin as [<-|[]]. reflexivity.
Qed.

Lemma ko_point_is_captured_stone_witness :
  wf_state ko_setup /\ in_bounds (js "cb") = true /\
  play (js "cb") ko_setup = Some (tt, ko_position) /\
  ko ko_position = JStr (js "bb") /\
  In (js "bb") (neighbours (js "cb")) /\
  cell (board ko_position) (js "bb") = EMPTY.
Proof.
  assert (H1 : wf_state ko_setup).
  { split; [|discriminate].
    split; [reflexivity|]. vm_compute. repeat constructor. }
  assert (H2 : play (js "cb") ko_setup = Some (tt, ko_position))
    by (vm_compute; reflexivity).
  split; [exact H1|]. split; [reflexivity|]. split; [exact H2|].
  split; [reflexivity|].
  destruct (@ko_point_is_captured_stone ko_setup ko_position (js "cb")
              (js "bb") H1 eq_refl H2 eq_refl) as (Hn & _ & He & _).
  split; [exact Hn|exact He].
Defined.
